(** * hexa-city: rotation bookkeeping, damped follower and camera auto-framing

    Shallow embedding of [src/app/lib/rotation.ts] and of the [CityGroup] and
    [AutoFrameCamera] components of the city scene.

    JavaScript numbers are modelled as follows: side indices, which the
    program only ever produces as small integers, are [Z]; angles, distances
    and elapsed times are mathematical reals [R], so IEEE-754 rounding is
    abstracted away.  The JavaScript remainder operator [%] keeps the sign of
    its dividend, both on integers ([Z.rem]) and on reals ([js_rem]). *)

From Stdlib Require Import Reals ZArith List Lia Lra Bool Wf_nat.
From Stdlib Require String Ascii.
Import ListNotations.

#[local] Open Scope R_scope.

(** ** JavaScript arithmetic on reals *)

Module JS.

(** Truncation toward zero, as performed by the [%] operator. *)
Definition trunc (x : R) : Z :=
  if Rle_dec 0 x then Int_part x else (- Int_part (- x))%Z.

(** [a % b] on numbers: the result has the sign of the dividend [a]. *)
Definition js_rem (a b : R) : R := a - b * IZR (trunc (a / b)).

(** [Math.max] and [Math.abs]. *)
Definition max (a b : R) : R := Rmax a b.
Definition abs (a : R) : R := Rabs a.

End JS.

(** ** [src/app/lib/rotation.ts] *)

Module Rotation.

Definition SIDES : Z := 6.
Definition ANGLE_PER_SIDE : R := (2 * PI) / IZR SIDES.

(** Y-axis rotation in radians for a side index. *)
Definition getRotationAngle (side : Z) : R := IZR side * ANGLE_PER_SIDE.

(** Next side index, wrapping 5 to 0. *)
Definition getNextSide (current : Z) : Z := Z.rem (current + 1) SIDES.

(** Previous side index, wrapping 0 to 5. *)
Definition getPrevSide (current : Z) : Z := Z.rem (current - 1 + SIDES) SIDES.

(** A valid side index: an integer in [0,6). *)
Definition validSide (s : Z) : Prop := (0 <= s < SIDES)%Z.

End Rotation.


(** ** The three.js objects the scene code reads and writes *)

Module Three.

Record Vector3 : Type := mkVector3 { x : R; y : R; z : R }.

Record Sphere : Type := mkSphere { center : Vector3; radius : R }.

(** A [THREE.Group] as the scene code sees it: its rotation about the
    vertical axis, the number of its children, and the answer of the
    bounding-volume query [new Box3().setFromObject(group)] followed by
    [getBoundingSphere]; [None] stands for an empty box. *)
Record Group : Type := mkGroup {
  rotation_y : R;
  children : nat;
  boundingSphere : option Sphere
}.

Definition set_rotation_y (g : Group) (v : R) : Group :=
  {| rotation_y := v; children := children g; boundingSphere := boundingSphere g |}.

Record Camera : Type := mkCamera {
  position : Vector3;
  lookingAt : option Vector3
}.

Record OrbitControls : Type := mkOrbitControls {
  target : Vector3;
  minDistance : R;
  maxDistance : R
}.

(** [THREE.MathUtils.degToRad]. *)
Definition degToRad (degrees : R) : R := degrees * (PI / 180).

End Three.

(** ** [CityGroup]: accumulated rotation and the damped follower *)

Module CityGroup.

Import Rotation.

Definition SMOOTHING : R := 5.
Definition EPSILON : R := 0.0005.
Definition ANGLE_PER_SIDE : R := (2 * PI) / 6.

(** The two refs of a mounted [CityGroup]. *)
Record Refs : Type := mkRefs {
  prevSideRef : Z;
  accumulatedRef : R
}.

(** [useRef(currentSide)] and [useRef(getRotationAngle(currentSide))] on the
    first render. *)
Definition mount (currentSide : Z) : Refs :=
  {| prevSideRef := currentSide;
     accumulatedRef := getRotationAngle currentSide |}.

(** The direct-jump branch: the difference of the canonical angles, wrapped. *)
Definition jumpDelta (prev currentSide : Z) : R :=
  let delta := getRotationAngle currentSide - getRotationAngle prev in
  JS.js_rem (delta + PI) (2 * PI) - PI.

(** The effect run with dependency [currentSide]. *)
Definition onSideChanged (refs : Refs) (currentSide : Z) : Refs :=
  let prev := prevSideRef refs in
  if (prev =? currentSide)%Z then refs
  else
    {| prevSideRef := currentSide;
       accumulatedRef :=
         if (getNextSide prev =? currentSide)%Z then
           accumulatedRef refs + ANGLE_PER_SIDE
         else if (getPrevSide prev =? currentSide)%Z then
           accumulatedRef refs - ANGLE_PER_SIDE
         else
           accumulatedRef refs + jumpDelta prev currentSide |}.

(** A sequence of renders, each delivering the side then current. *)
Definition sideChanges (refs : Refs) (sides : list Z) : Refs :=
  fold_left onSideChanged sides refs.

(** The accumulated rotation is the canonical angle of the stored side, up
    to whole turns. *)
Definition congruent (refs : Refs) : Prop :=
  exists k : Z,
    accumulatedRef refs = getRotationAngle (prevSideRef refs) + 2 * PI * IZR k.

(** The interpolation weight of one frame. *)
Definition factor (dt : R) : R := 1 - exp (- SMOOTHING * dt).

(** The body of the [useFrame] callback on the orientation scalar. *)
Definition damp (target current dt : R) : R :=
  let delta := target - current in
  if Rlt_dec (JS.abs delta) EPSILON then target
  else current + delta * factor dt.

(** The [useFrame] callback: nothing happens while the group ref is null. *)
Definition useFrame (refs : Refs) (group : option Three.Group) (dt : R)
  : option Three.Group :=
  match group with
  | None => None
  | Some g =>
      Some (Three.set_rotation_y g (damp (accumulatedRef refs) (Three.rotation_y g) dt))
  end.

(** The orientation after [n] frames of the same length [dt]. *)
Fixpoint frames (n : nat) (target current dt : R) : R :=
  match n with
  | O => current
  | S m => damp target (frames m target current dt) dt
  end.

End CityGroup.

(** ** [AutoFrameCamera]: one-shot camera placement *)

Module AutoFrameCamera.

Import Three.

Definition CAMERA_FOV : R := 75.
Definition CAMERA_ELEVATION_ANGLE : R := 2.85.
Definition FRAMING_PADDING : R := 0.7.
Definition MIN_CAMERA_DISTANCE : R := 5.
Definition ZOOM_IN_FACTOR : R := 0.33.
Definition MOBILE_BREAKPOINT : R := 1000.
Definition MOBILE_DISTANCE_FACTOR : R := 1.35.

(** The distance before the small-screen adjustment. *)
Definition baseDistance (sphereRadius : R) : R :=
  let radius := sphereRadius * FRAMING_PADDING in
  let fovRad := degToRad CAMERA_FOV in
  JS.max (radius / tan (fovRad / 2)) MIN_CAMERA_DISTANCE.

(** The camera distance computed by the scheduled callback. *)
Definition frameDistance (sphereRadius width : R) : R :=
  let distance := baseDistance sphereRadius in
  if Rlt_dec width MOBILE_BREAKPOINT then distance * MOBILE_DISTANCE_FACTOR
  else distance.

(** Component state: the [hasFramed] ref, the animation-frame request that is
    outstanding (with the viewport width its closure captured), and the
    camera and controls the callback writes to. *)
Record State : Type := mkState {
  hasFramed : bool;
  pending : option R;
  camera : Camera;
  controls : option OrbitControls
}.

Definition initial (cam : Camera) (ctl : option OrbitControls) : State :=
  {| hasFramed := false; pending := None; camera := cam; controls := ctl |}.

(** What can happen to a mounted component: React runs the effect (after the
    cleanup of the previous run) with the group ref and viewport width of the
    moment; the browser delivers an animation frame; React runs the cleanup
    alone. *)
Inductive Event : Type :=
| EffectRun (group : option Group) (width : R)
| AnimationFrame (group : option Group)
| Cleanup.

(** [cancelAnimationFrame(id)]. *)
Definition cancel (s : State) : State :=
  {| hasFramed := hasFramed s; pending := None;
     camera := camera s; controls := controls s |}.

(** The effect body. *)
Definition effect (s : State) (group : option Group) (width : R) : State :=
  match group with
  | None => s
  | Some g =>
      if hasFramed s || Nat.eqb (children g) 0 then s
      else {| hasFramed := hasFramed s; pending := Some width;
              camera := camera s; controls := controls s |}
  end.

(** The callback handed to [requestAnimationFrame]; the result says whether
    the framing was carried out, and with which distance. *)
Definition callback (s : State) (group : option Group) (width : R)
  : State * option R :=
  match group with
  | None => (s, None)
  | Some g =>
      match boundingSphere g with
      | None => (s, None)
      | Some sphere =>
          let c := center sphere in
          let distance := frameDistance (radius sphere) width in
          let camY := y c + distance * sin CAMERA_ELEVATION_ANGLE in
          let camZ := z c + distance * cos CAMERA_ELEVATION_ANGLE in
          ({| hasFramed := true;
              pending := pending s;
              camera := {| position := mkVector3 (x c) camY camZ;
                           lookingAt := Some c |};
              controls :=
                match controls s with
                | None => None
                | Some _ =>
                    Some {| target := c;
                            minDistance := distance * ZOOM_IN_FACTOR;
                            maxDistance := distance |}
                end |},
           Some distance)
      end
  end.

(** One event; the second component is [Some distance] when the event
    carried out the framing. *)
Definition step (s : State) (e : Event) : State * option R :=
  match e with
  | EffectRun group width => (effect (cancel s) group width, None)
  | AnimationFrame group =>
      match pending s with
      | None => (s, None)
      | Some width => callback (cancel s) group width
      end
  | Cleanup => (cancel s, None)
  end.

(** The state after a sequence of events, and the framings carried out on
    the way, oldest first. *)
Fixpoint run (s : State) (es : list Event) : State * list R :=
  match es with
  | [] => (s, [])
  | e :: es' =>
      let '(s1, o) := step s e in
      let '(s2, os) := run s1 es' in
      (s2, match o with Some d => d :: os | None => os end)
  end.

(** A framed component has no animation-frame request outstanding. *)
Definition quiescent (s : State) : Prop :=
  hasFramed s = true -> pending s = None.

End AutoFrameCamera.

(** ** Kinds of events of the auto-framing component *)

Module Framing.

Import Three AutoFrameCamera.

(** The event leaves no animation-frame request behind: it is not an effect
    run that sees a group with children. *)
Definition schedulesNothing (e : Event) : Prop :=
  match e with
  | EffectRun (Some g) _ => children g = 0%nat
  | _ => True
  end.

(** The event is not an animation frame that sees a non-empty bounding
    volume. *)
Definition nothingToMeasure (e : Event) : Prop :=
  match e with
  | AnimationFrame (Some g) => boundingSphere g = None
  | _ => True
  end.

End Framing.

(** ** The page: current side, previous/next buttons and compass segments *)

Module Page.

Import Rotation.

(** [SIDES] of the compass: it renders one clickable segment per index of
    [Array.from({ length: SIDES })]. *)
Definition COMPASS_SIDES : nat := 6.

Definition compassSegments : list Z := map Z.of_nat (seq 0 COMPASS_SIDES).

(** The user actions that change the current side. *)
Inductive UiEvent : Type :=
| ClickPrevious
| ClickNext
| SelectSegment (i : Z).

(** A compass event carries the index of a rendered segment. *)
Definition rendered (e : UiEvent) : Prop :=
  match e with
  | SelectSegment i => In i compassSegments
  | _ => True
  end.

(** The state updaters handed to [setCurrentSide]. *)
Definition setCurrentSide (currentSide : Z) (e : UiEvent) : Z :=
  match e with
  | ClickPrevious => getPrevSide currentSide
  | ClickNext => getNextSide currentSide
  | SelectSegment i => i
  end.

(** The page state together with the refs of the mounted [CityGroup]. *)
Record State : Type := mkState {
  currentSide : Z;
  refs : CityGroup.Refs
}.

(** [CityGroup] mounts with the side current at that moment. *)
Definition mounted (side : Z) : State :=
  {| currentSide := side; refs := CityGroup.mount side |}.

(** One user action: the state update, the render and the side-change
    effect that follows it. *)
Definition step (s : State) (e : UiEvent) : State :=
  let side := setCurrentSide (currentSide s) e in
  {| currentSide := side;
     refs := CityGroup.onSideChanged (refs s) side |}.

Definition run (s : State) (es : list UiEvent) : State := fold_left step es s.

(** The invariant of a mounted page: the current side is valid and the
    scene's ref holds it. *)
Definition inStep (s : State) : Prop :=
  validSide (currentSide s) /\ CityGroup.prevSideRef (refs s) = currentSide s.

(** Forward clicks minus backward clicks. *)
Fixpoint netSteps (es : list UiEvent) : Z :=
  match es with
  | [] => 0
  | ClickNext :: es' => 1 + netSteps es'
  | ClickPrevious :: es' => -1 + netSteps es'
  | SelectSegment _ :: es' => netSteps es'
  end.

Definition isButton (e : UiEvent) : Prop :=
  match e with
  | SelectSegment _ => False
  | _ => True
  end.

(** The [loaded] flag of the page: the effect on [progress] only ever sets
    it. *)
Definition onProgress (loaded : bool) (progress : R) : bool :=
  if Rle_dec 100 progress then true else loaded.

Definition loadedAfter (reports : list R) : bool :=
  fold_left onProgress reports false.

End Page.

(** ** Markers and their selection *)

Module Markers.

Import String Ascii.
#[local] Open Scope string_scope.

Definition SIDE_LABELS : list string := ["N"; "NE"; "SE"; "S"; "SW"; "NW"]%list.
Definition SIDE_ELEMENTS : list string :=
  ["Light"; "Wind"; "Fire"; "Dark"; "Water"; "Earth"]%list.
Definition MARKER_RING_RADIUS : R := 50.
Definition MARKER_BASE_Y : R := 0.55.

(** [element] is [None] where the array lookup would give [undefined]. *)
Record MarkerData : Type := mkMarkerData {
  id : string;
  title : string;
  level : Z;
  element : option string;
  attack : Z;
  defense : Z;
  position : R * R * R
}.

(** [String.prototype.toLowerCase] on ASCII text. *)
Definition lowerChar (c : ascii) : ascii :=
  let n := nat_of_ascii c in
  if (65 <=? n)%nat && (n <=? 90)%nat then ascii_of_nat (n + 32) else c.

Fixpoint toLowerCase (s : string) : string :=
  match s with
  | EmptyString => EmptyString
  | String c rest => String (lowerChar c) (toLowerCase rest)
  end.

(** The callback of [SIDE_LABELS.map]. *)
Definition makeMarker (label : string) (sideIndex : nat) : MarkerData :=
  let angle := (PI / 2) - INR sideIndex * ((2 * PI) / 6) in
  let x := MARKER_RING_RADIUS * cos angle in
  let z := MARKER_RING_RADIUS * sin angle in
  {| id := "side-" ++ toLowerCase label;
     title := label ++ " Pillar";
     level := 1 + Z.of_nat sideIndex;
     element := nth_error SIDE_ELEMENTS sideIndex;
     attack := 50 + Z.of_nat sideIndex * 3;
     defense := 48 + Z.of_nat sideIndex * 3;
     position := (x, MARKER_BASE_Y, z) |}.

(** [Array.prototype.map] with the index as second argument. *)
Fixpoint mapIndexed {A B : Type} (f : A -> nat -> B) (from : nat) (l : list A)
  : list B :=
  match l with
  | [] => []
  | a :: l' => f a from :: mapIndexed f (S from) l'
  end%list.

Definition MARKERS : list MarkerData := mapIndexed makeMarker 0 SIDE_LABELS.

(** [marker.id === selectedMarkerId]. *)
Definition isSelected (marker : MarkerData) (selectedMarkerId : option string)
  : bool :=
  match selectedMarkerId with
  | Some i => String.eqb (id marker) i
  | None => false
  end.

(** The selection kept by the page ([selectedMarker]) and by the scene
    ([selectedMarkerId]). *)
Record Selection : Type := mkSelection {
  selectedMarker : option MarkerData;
  selectedMarkerId : option string
}.

Definition noSelection : Selection :=
  {| selectedMarker := None; selectedMarkerId := None |}.

Inductive SelectEvent : Type :=
| MarkerClick (marker : MarkerData)
| PointerMissed.

(** The updater of the page: [prev?.id === marker.id ? null : marker]. *)
Definition pageSelect (prev : option MarkerData) (marker : MarkerData)
  : option MarkerData :=
  match prev with
  | Some p => if String.eqb (id p) (id marker) then None else Some marker
  | None => Some marker
  end.

(** The updater of the scene: [prev === marker.id ? null : marker.id]. *)
Definition sceneSelect (prev : option string) (marker : MarkerData)
  : option string :=
  match prev with
  | Some i => if String.eqb i (id marker) then None else Some (id marker)
  | None => Some (id marker)
  end.

(** [handleMarkerSelect] of the scene, which also calls the page's handler,
    and [handlePointerMissed]. *)
Definition select (s : Selection) (e : SelectEvent) : Selection :=
  match e with
  | MarkerClick marker =>
      {| selectedMarker := pageSelect (selectedMarker s) marker;
         selectedMarkerId := sceneSelect (selectedMarkerId s) marker |}
  | PointerMissed => noSelection
  end.

Definition selections (es : list SelectEvent) : Selection :=
  fold_left select es noSelection.

End Markers.

(** ** [src/app/components/Compass.tsx] *)

Module Compass.

Definition SIDES : Z := 6.
Definition RADIUS : R := 40.
Definition CENTER : R := 50.

Record Point : Type := mkPoint { px : R; py : R }.

(** SVG coordinate of a hexagon vertex. *)
Definition hexPoint (index : Z) : Point :=
  let angleDeg := 60 * IZR index - 30 in
  let angleRad := (PI / 180) * angleDeg in
  {| px := CENTER + RADIUS * cos angleRad;
     py := CENTER + RADIUS * sin angleRad |}.

(** Midpoint of a segment, used for label placement. *)
Definition segmentMidpoint (index : Z) : Point :=
  let p1 := hexPoint index in
  let p2 := hexPoint (Z.rem (index + 1) SIDES) in
  {| px := (CENTER + px p1 + px p2) / 3;
     py := (CENTER + py p1 + py p2) / 3 |}.

End Compass.

Import Rotation CityGroup.

(** ** Facts about the JavaScript remainder *)

Section JsRemFacts.

Lemma Int_part_unique (x : R) (k : Z) : IZR k <= x < IZR k + 1 -> Int_part x = k.
Proof.
  intros [Hlo Hhi]. symmetry. apply Int_part_spec. lra.
Qed.

Lemma trunc_nonneg (x : R) (k : Z) :
  0 <= x -> IZR k <= x < IZR k + 1 -> JS.trunc x = k.
Proof.
  intros Hx Hk. unfold JS.trunc.
  destruct (Rle_dec 0 x) as [_|Hn]; [now apply Int_part_unique | contradiction].
Qed.

Lemma trunc_neg (x : R) (k : Z) :
  x < 0 -> IZR k <= - x < IZR k + 1 -> JS.trunc x = (- k)%Z.
Proof.
  intros Hx Hk. unfold JS.trunc.
  destruct (Rle_dec 0 x) as [Hp|_]; [lra|].
  now rewrite (Int_part_unique (- x) k).
Qed.

(** Dividend [b * k + r] with [0 <= r < b]: the remainder is [r]. *)
Lemma js_rem_nonneg (b r : R) (k : Z) :
  0 < b -> (0 <= k)%Z -> 0 <= r < b -> JS.js_rem (b * IZR k + r) b = r.
Proof.
  intros Hb Hk Hr. unfold JS.js_rem.
  assert (Hq : (b * IZR k + r) / b = IZR k + r / b) by (field; lra).
  assert (H0 : 0 <= r / b < 1).
  { split.
    - apply Rmult_le_pos; [lra | left; now apply Rinv_0_lt_compat].
    - apply (Rmult_lt_reg_r b); [assumption|].
      replace (r / b * b) with r by (field; lra). lra. }
  assert (Hk' : 0 <= IZR k) by now apply IZR_le.
  rewrite (trunc_nonneg _ k); rewrite ?Hq; lra.
Qed.

(** Negative dividend [- (b * k + r)]: the remainder is [- r]. *)
Lemma js_rem_neg (b r : R) (k : Z) :
  0 < b -> (0 <= k)%Z -> 0 <= r < b -> 0 < b * IZR k + r ->
  JS.js_rem (- (b * IZR k + r)) b = - r.
Proof.
  intros Hb Hk Hr Hpos. unfold JS.js_rem.
  assert (Hq : - (- (b * IZR k + r) / b) = IZR k + r / b) by (field; lra).
  assert (H0 : 0 <= r / b < 1).
  { split.
    - apply Rmult_le_pos; [lra | left; now apply Rinv_0_lt_compat].
    - apply (Rmult_lt_reg_r b); [assumption|].
      replace (r / b * b) with r by (field; lra). lra. }
  assert (Hk' : 0 <= IZR k) by now apply IZR_le.
  assert (Hneg : - (b * IZR k + r) / b < 0).
  { apply (Rmult_lt_reg_r b); [assumption|].
    replace (- (b * IZR k + r) / b * b) with (- (b * IZR k + r)) by (field; lra).
    lra. }
  rewrite (trunc_neg _ k); [rewrite opp_IZR; lra | assumption | rewrite Hq; lra].
Qed.

(** Whatever the operands, [%] changes its dividend by a whole multiple of
    the divisor. *)
Lemma js_rem_congr (a b : R) : exists k : Z, JS.js_rem a b = a - b * IZR k.
Proof. now exists (JS.trunc (a / b)). Qed.

End JsRemFacts.

(** ** Side arithmetic *)

Section SideArithmetic.

Lemma validSide_cases (s : Z) :
  validSide s -> s = 0%Z \/ s = 1%Z \/ s = 2%Z \/ s = 3%Z \/ s = 4%Z \/ s = 5%Z.
Proof. unfold validSide, SIDES. lia. Qed.

Lemma getNextSide_valid (s : Z) : validSide s -> validSide (getNextSide s).
Proof.
  intros H. destruct (validSide_cases s H) as [->|[->|[->|[->|[->| ->]]]]];
    unfold validSide, SIDES; cbn; lia.
Qed.

Lemma getPrevSide_valid (s : Z) : validSide s -> validSide (getPrevSide s).
Proof.
  intros H. destruct (validSide_cases s H) as [->|[->|[->|[->|[->| ->]]]]];
    unfold validSide, SIDES; cbn; lia.
Qed.

(** On valid sides stepping forward and stepping backward never coincide,
    and neither is the identity. *)
Lemma next_prev_distinct (s : Z) :
  validSide s ->
  getNextSide s <> s /\ getPrevSide s <> s /\ getNextSide s <> getPrevSide s.
Proof.
  intros H. destruct (validSide_cases s H) as [->|[->|[->|[->|[->| ->]]]]];
    cbn; lia.
Qed.

(** The canonical angle of the next (previous) side differs from the
    current one by a sixth of a turn, up to whole turns.  This holds for
    every integer, not only for valid sides. *)
Lemma getRotationAngle_next (s : Z) :
  exists k : Z,
    getRotationAngle (getNextSide s)
    = getRotationAngle s + CityGroup.ANGLE_PER_SIDE + 2 * PI * IZR k.
Proof.
  exists (- ((s + 1) ÷ 6))%Z.
  unfold getRotationAngle, getNextSide, Rotation.ANGLE_PER_SIDE,
    CityGroup.ANGLE_PER_SIDE, SIDES.
  rewrite Z.rem_eq by lia.
  rewrite minus_IZR, mult_IZR, plus_IZR, opp_IZR. lra.
Qed.

Lemma getRotationAngle_prev (s : Z) :
  exists k : Z,
    getRotationAngle (getPrevSide s)
    = getRotationAngle s - CityGroup.ANGLE_PER_SIDE + 2 * PI * IZR k.
Proof.
  exists (1 - ((s - 1 + 6) ÷ 6))%Z.
  unfold getRotationAngle, getPrevSide, Rotation.ANGLE_PER_SIDE,
    CityGroup.ANGLE_PER_SIDE, SIDES.
  rewrite Z.rem_eq by lia.
  rewrite !minus_IZR, mult_IZR, plus_IZR, minus_IZR. lra.
Qed.

End SideArithmetic.

(** C9. For every side index [s] in [0,6), stepping backward and then forward,
    or forward and then backward, returns to [s]:
    [getNextSide (getPrevSide s) = s] and [getPrevSide (getNextSide s) = s]. *)
Theorem next_prev_roundtrip (s : Z) :
  validSide s ->
  getNextSide (getPrevSide s) = s /\ getPrevSide (getNextSide s) = s.
Proof.
  intros H. destruct (validSide_cases s H) as [->|[->|[->|[->|[->| ->]]]]];
    split; reflexivity.
Qed.

Lemma next_prev_roundtrip_at_0 :
  validSide 0 /\ getNextSide (getPrevSide 0) = 0%Z /\ getPrevSide (getNextSide 0) = 0%Z.
Proof.
  assert (H : validSide 0) by (unfold validSide, SIDES; lia).
  split; [exact H | exact (next_prev_roundtrip 0 H)].
Defined.

(** ** The side-change effect *)

Section SideChange.

(** The effect on distinct sides, branch by branch. *)
Lemma onSideChanged_forward (refs : Refs) (next : Z) :
  prevSideRef refs <> next -> getNextSide (prevSideRef refs) = next ->
  onSideChanged refs next
  = mkRefs next (accumulatedRef refs + CityGroup.ANGLE_PER_SIDE).
Proof.
  intros Hne Hn. unfold onSideChanged.
  destruct (Z.eqb_spec (prevSideRef refs) next) as [|_]; [contradiction|].
  now rewrite (proj2 (Z.eqb_eq _ _) Hn).
Qed.

Lemma onSideChanged_backward (refs : Refs) (next : Z) :
  prevSideRef refs <> next -> getNextSide (prevSideRef refs) <> next ->
  getPrevSide (prevSideRef refs) = next ->
  onSideChanged refs next
  = mkRefs next (accumulatedRef refs - CityGroup.ANGLE_PER_SIDE).
Proof.
  intros Hne Hn Hp. unfold onSideChanged.
  destruct (Z.eqb_spec (prevSideRef refs) next) as [|_]; [contradiction|].
  destruct (Z.eqb_spec (getNextSide (prevSideRef refs)) next) as [|_];
    [contradiction|].
  now rewrite (proj2 (Z.eqb_eq _ _) Hp).
Qed.

Lemma onSideChanged_jump (refs : Refs) (next : Z) :
  prevSideRef refs <> next -> getNextSide (prevSideRef refs) <> next ->
  getPrevSide (prevSideRef refs) <> next ->
  onSideChanged refs next
  = mkRefs next (accumulatedRef refs + jumpDelta (prevSideRef refs) next).
Proof.
  intros Hne Hn Hp. unfold onSideChanged.
  destruct (Z.eqb_spec (prevSideRef refs) next) as [|_]; [contradiction|].
  destruct (Z.eqb_spec (getNextSide (prevSideRef refs)) next) as [|_];
    [contradiction|].
  destruct (Z.eqb_spec (getPrevSide (prevSideRef refs)) next) as [|_];
    [contradiction|reflexivity].
Qed.

Lemma onSideChanged_same (refs : Refs) :
  onSideChanged refs (prevSideRef refs) = refs.
Proof. unfold onSideChanged. now rewrite Z.eqb_refl. Qed.

(** After the effect the stored side is the one delivered. *)
Lemma onSideChanged_prevSideRef (refs : Refs) (next : Z) :
  prevSideRef (onSideChanged refs next) = next.
Proof.
  unfold onSideChanged.
  destruct (Z.eqb_spec (prevSideRef refs) next) as [E|_]; [exact E|reflexivity].
Qed.

(** The wrapped jump only depends on the difference of the two sides. *)
Lemma jumpDelta_diff (prev next : Z) :
  jumpDelta prev next
  = JS.js_rem (IZR (next - prev) * (PI / 3) + PI) (2 * PI) - PI.
Proof.
  unfold jumpDelta, getRotationAngle, Rotation.ANGLE_PER_SIDE, SIDES.
  rewrite minus_IZR. f_equal. f_equal. lra.
Qed.

(** The wrap changes the raw difference by whole turns only. *)
Lemma jumpDelta_congr (prev next : Z) :
  exists k : Z,
    jumpDelta prev next
    = getRotationAngle next - getRotationAngle prev + 2 * PI * IZR k.
Proof.
  unfold jumpDelta.
  destruct (js_rem_congr (getRotationAngle next - getRotationAngle prev + PI) (2 * PI))
    as [k Hk].
  exists (- k)%Z. rewrite Hk, opp_IZR. lra.
Qed.

Ltac wrap_nonneg k r :=
  match goal with
  | |- context [JS.js_rem ?a ?b] =>
      replace a with (b * IZR k + r) by (simpl; lra);
      rewrite (js_rem_nonneg b r k) by (pose proof PI_RGT_0; simpl; (lia || lra))
  end.

(** The value of the wrapped jump for each difference of sides. *)
Lemma jumpDelta_plus2 (prev next : Z) :
  (next - prev = 2)%Z -> jumpDelta prev next = 2 * PI / 3.
Proof.
  intros E. rewrite jumpDelta_diff, E. wrap_nonneg 0%Z (5 * PI / 3). lra.
Qed.

Lemma jumpDelta_plus3 (prev next : Z) :
  (next - prev = 3)%Z -> jumpDelta prev next = - PI.
Proof.
  intros E. rewrite jumpDelta_diff, E. wrap_nonneg 1%Z 0. lra.
Qed.

Lemma jumpDelta_plus4 (prev next : Z) :
  (next - prev = 4)%Z -> jumpDelta prev next = - (2 * PI / 3).
Proof.
  intros E. rewrite jumpDelta_diff, E. wrap_nonneg 1%Z (PI / 3). lra.
Qed.

Lemma jumpDelta_minus2 (prev next : Z) :
  (next - prev = -2)%Z -> jumpDelta prev next = - (2 * PI / 3).
Proof.
  intros E. rewrite jumpDelta_diff, E. wrap_nonneg 0%Z (PI / 3). lra.
Qed.

Lemma jumpDelta_minus3 (prev next : Z) :
  (next - prev = -3)%Z -> jumpDelta prev next = - PI.
Proof.
  intros E. rewrite jumpDelta_diff, E. wrap_nonneg 0%Z 0. lra.
Qed.

(** A negative dividend keeps its sign through [%]: the jump four sides
    backward is not shortened. *)
Lemma jumpDelta_minus4 (prev next : Z) :
  (next - prev = -4)%Z -> jumpDelta prev next = - (4 * PI / 3).
Proof.
  intros E. rewrite jumpDelta_diff, E.
  replace (-4 * (PI / 3) + PI) with (- (2 * PI * IZR 0 + PI / 3)) by (simpl; lra).
  rewrite (js_rem_neg (2 * PI) (PI / 3) 0)
    by (pose proof PI_RGT_0; simpl; (lia || lra)).
  lra.
Qed.

End SideChange.

(** C7. For [previous] and [next] in [0,6) the side-change effect adds exactly
    [2π/6] to the accumulated rotation when [next = getNextSide previous],
    subtracts exactly [2π/6] when [next = getPrevSide previous], and changes
    nothing when [previous = next]. *)
Theorem adjacent_step_accumulates (refs : Refs) (next : Z) :
  validSide (prevSideRef refs) -> validSide next ->
  (next = getNextSide (prevSideRef refs) ->
     accumulatedRef (onSideChanged refs next) = accumulatedRef refs + 2 * PI / 6) /\
  (next = getPrevSide (prevSideRef refs) ->
     accumulatedRef (onSideChanged refs next) = accumulatedRef refs - 2 * PI / 6) /\
  (next = prevSideRef refs -> onSideChanged refs next = refs).
Proof.
  intros Hp _.
  destruct (next_prev_distinct _ Hp) as (Hn & Hpv & Hnp).
  repeat split.
  - intros ->. rewrite onSideChanged_forward; auto.
  - intros ->. rewrite onSideChanged_backward; auto.
  - intros ->. apply onSideChanged_same.
Qed.

Lemma adjacent_step_accumulates_from_5 :
  accumulatedRef (onSideChanged (mount 5) 0) = accumulatedRef (mount 5) + 2 * PI / 6
  /\ accumulatedRef (onSideChanged (mount 0) 5) = accumulatedRef (mount 0) - 2 * PI / 6
  /\ onSideChanged (mount 2) 2 = mount 2.
Proof.
  assert (V : forall s, (0 <=? s)%Z && (s <? 6)%Z = true -> validSide s).
  { intros s H. apply andb_prop in H. unfold validSide, SIDES. lia. }
  split; [|split].
  - apply (adjacent_step_accumulates (mount 5) 0); try (apply V; reflexivity).
    reflexivity.
  - apply (adjacent_step_accumulates (mount 0) 5); try (apply V; reflexivity).
    reflexivity.
  - apply (adjacent_step_accumulates (mount 2) 2); try (apply V; reflexivity).
    reflexivity.
Defined.

(** C1, as stated, fails.  A jump between opposite sides yields [-π], which
    is outside the half-open arc (−π, π]; and the jump from side 4 to side 0
    takes the direct-jump branch and adds [-4π/3], which is not a shortest
    arc at all. *)
Lemma jump_outside_half_open_arc :
  (accumulatedRef (onSideChanged (mount 0) 3) = accumulatedRef (mount 0) + jumpDelta 0 3
   /\ jumpDelta 0 3 = - PI
   /\ ~ (- PI < jumpDelta 0 3 <= PI))
  /\
  (accumulatedRef (onSideChanged (mount 4) 0) = accumulatedRef (mount 4) + jumpDelta 4 0
   /\ jumpDelta 4 0 = - (4 * PI / 3)
   /\ ~ (- PI < jumpDelta 4 0 <= PI)).
Proof.
  pose proof PI_RGT_0 as Hpi.
  split; (split; [reflexivity|]).
  - rewrite (jumpDelta_plus3 0 3) by reflexivity. split; [reflexivity | lra].
  - rewrite (jumpDelta_minus4 4 0) by reflexivity. split; [reflexivity | lra].
Qed.

(** C1, amended.  For distinct, non-adjacent sides in [0,6) other than the
    jumps four sides backward (4 to 0 and 5 to 1), the direct-jump branch adds
    [jumpDelta], the difference of the canonical angles wrapped by
    [((delta + π) % 2π) − π]; that value lies in [−π, π), differs from the
    raw difference by whole turns, and is exactly [−π] between opposite
    sides such as 0 and 3. *)
Theorem jump_takes_shortest_arc (refs : Refs) (next : Z) :
  validSide (prevSideRef refs) -> validSide next ->
  prevSideRef refs <> next ->
  getNextSide (prevSideRef refs) <> next ->
  getPrevSide (prevSideRef refs) <> next ->
  (next - prevSideRef refs <> -4)%Z ->
  let delta := getRotationAngle next - getRotationAngle (prevSideRef refs) in
  let wrapped := JS.js_rem (delta + PI) (2 * PI) - PI in
  accumulatedRef (onSideChanged refs next) = accumulatedRef refs + wrapped
  /\ - PI <= wrapped < PI
  /\ (exists k : Z, wrapped = delta + 2 * PI * IZR k)
  /\ (Z.abs (next - prevSideRef refs) = 3%Z -> wrapped = - PI).
Proof.
  intros Hp Hn Hne Hnx Hpv H4 delta wrapped.
  change wrapped with (jumpDelta (prevSideRef refs) next).
  pose proof PI_RGT_0 as Hpi.
  split; [now rewrite onSideChanged_jump|].
  split; [|split; [apply jumpDelta_congr|]].
  - destruct (validSide_cases _ Hp) as [E|[E|[E|[E|[E|E]]]]];
      destruct (validSide_cases _ Hn) as [->|[->|[->|[->|[->| ->]]]]];
      rewrite E in *; cbn in Hne, Hnx, Hpv, H4; try lia;
      first [ rewrite jumpDelta_plus2 by reflexivity
            | rewrite jumpDelta_plus3 by reflexivity
            | rewrite jumpDelta_plus4 by reflexivity
            | rewrite jumpDelta_minus2 by reflexivity
            | rewrite jumpDelta_minus3 by reflexivity ]; lra.
  - intros H3.
    destruct (Z.abs_spec (next - prevSideRef refs)) as [[_ E]|[_ E]];
      rewrite E in H3.
    + now apply jumpDelta_plus3.
    + apply jumpDelta_minus3. lia.
Qed.

Lemma jump_takes_shortest_arc_0_to_3 :
  accumulatedRef (onSideChanged (mount 0) 3) = accumulatedRef (mount 0) + - PI.
Proof.
  assert (V : forall s, (0 <=? s)%Z && (s <? 6)%Z = true -> validSide s).
  { intros s H. apply andb_prop in H. unfold validSide, SIDES. lia. }
  destruct (jump_takes_shortest_arc (mount 0) 3) as (Hacc & _ & _ & Hpi);
    try (apply V; reflexivity); try (cbn; lia).
  rewrite Hacc. f_equal. apply Hpi. reflexivity.
Defined.

(** ** The accumulated rotation follows the current side *)

Section Congruence.

Lemma congruent_mount (side : Z) : congruent (mount side).
Proof. exists 0%Z. cbn. lra. Qed.

(** Every branch of the effect preserves the congruence, whatever integer
    is delivered. *)
Lemma congruent_onSideChanged (refs : Refs) (next : Z) :
  congruent refs -> congruent (onSideChanged refs next).
Proof.
  intros [k Hk]. unfold congruent, onSideChanged.
  destruct (Z.eqb_spec (prevSideRef refs) next) as [_|_]; [now exists k|].
  destruct (Z.eqb_spec (getNextSide (prevSideRef refs)) next) as [En|_]; cbn.
  - destruct (getRotationAngle_next (prevSideRef refs)) as [j Hj].
    rewrite En in Hj. exists (k - j)%Z. rewrite minus_IZR. lra.
  - destruct (Z.eqb_spec (getPrevSide (prevSideRef refs)) next) as [Ep|_].
    + destruct (getRotationAngle_prev (prevSideRef refs)) as [j Hj].
      rewrite Ep in Hj. exists (k - j)%Z. rewrite minus_IZR. lra.
    + destruct (jumpDelta_congr (prevSideRef refs) next) as [j Hj].
      exists (k + j)%Z. rewrite plus_IZR. lra.
Qed.

Lemma congruent_sideChanges (sides : list Z) (refs : Refs) :
  congruent refs -> congruent (sideChanges refs sides).
Proof.
  revert refs. induction sides as [|s sides IH]; intros refs H; cbn.
  - exact H.
  - apply IH. now apply congruent_onSideChanged.
Qed.

Lemma last_default_irrelevant (z : Z) (l : list Z) (d d' : Z) :
  last (z :: l) d = last (z :: l) d'.
Proof.
  revert z. induction l as [|a l IH]; intros z; [reflexivity|].
  change (last (a :: l) d = last (a :: l) d'). apply IH.
Qed.

Lemma sideChanges_prevSideRef (sides : list Z) (refs : Refs) :
  prevSideRef (sideChanges refs sides) = last sides (prevSideRef refs).
Proof.
  revert refs. induction sides as [|s sides IH]; intros refs; [reflexivity|].
  cbn [sideChanges fold_left]. fold (sideChanges (onSideChanged refs s) sides).
  rewrite IH, onSideChanged_prevSideRef.
  destruct sides as [|z sides]; [reflexivity|].
  change (last (s :: z :: sides) (prevSideRef refs))
    with (last (z :: sides) (prevSideRef refs)).
  apply last_default_irrelevant.
Qed.

(** Six forward steps from side 0 accumulate a whole turn. *)
Example full_turn_accumulates :
  sideChanges (mount 0) [1; 2; 3; 4; 5; 0]%Z = mkRefs 0 (2 * PI).
Proof.
  cbn. f_equal. unfold getRotationAngle, CityGroup.ANGLE_PER_SIDE. lra.
Qed.

End Congruence.

(** C2. Starting from the mount state, where the accumulated rotation is the
    canonical angle of the initial side, after any finite sequence of
    side changes with all sides in [0,6) the stored side is the last one
    delivered and the accumulated rotation equals its canonical angle plus a
    whole number of turns. *)
Theorem accumulated_congruent_to_current_side (initialSide : Z) (sides : list Z) :
  validSide initialSide -> Forall validSide sides ->
  let refs := sideChanges (mount initialSide) sides in
  let currentSide := last sides initialSide in
  prevSideRef refs = currentSide /\
  exists k : Z,
    accumulatedRef refs = getRotationAngle currentSide + 2 * PI * IZR k.
Proof.
  intros _ _ refs currentSide.
  assert (Hside : prevSideRef refs = currentSide)
    by (unfold refs; now rewrite sideChanges_prevSideRef).
  split; [exact Hside|].
  rewrite <- Hside. apply congruent_sideChanges, congruent_mount.
Qed.

Lemma accumulated_congruent_after_tour :
  exists k : Z,
    accumulatedRef (sideChanges (mount 0) [1; 2; 3; 4; 5; 0; 3; 4; 0]%Z)
    = getRotationAngle 0 + 2 * PI * IZR k.
Proof.
  assert (V : forall s, (0 <=? s)%Z && (s <? 6)%Z = true -> validSide s).
  { intros s H. apply andb_prop in H. unfold validSide, SIDES. lia. }
  apply (accumulated_congruent_to_current_side 0 [1; 2; 3; 4; 5; 0; 3; 4; 0]%Z).
  - apply V; reflexivity.
  - repeat constructor; apply V; reflexivity.
Defined.

(** ** The damped follower *)

Section Damping.

Lemma factor_0 : factor 0 = 0.
Proof. unfold factor. rewrite Rmult_0_r, exp_0. lra. Qed.

(** The decay [exp (-SMOOTHING * dt)] of one frame lies in (0,1] for a
    non-negative [dt], and below 1 for a positive one. *)
Lemma decay_range (dt : R) : 0 <= dt -> 0 < exp (- SMOOTHING * dt) <= 1.
Proof.
  intros Hdt. split; [apply exp_pos|].
  destruct Hdt as [Hdt| <-].
  - left. rewrite <- exp_0. apply exp_increasing. unfold SMOOTHING. lra.
  - rewrite Rmult_0_r, exp_0. lra.
Qed.

Lemma decay_lt_1 (dt : R) : 0 < dt -> exp (- SMOOTHING * dt) < 1.
Proof.
  intros Hdt. rewrite <- exp_0. apply exp_increasing. unfold SMOOTHING. lra.
Qed.

Lemma factor_range (dt : R) : 0 <= dt -> 0 <= factor dt < 1.
Proof. intros Hdt. pose proof (decay_range dt Hdt). unfold factor. lra. Qed.

Lemma damp_snap (target current dt : R) :
  Rabs (target - current) < EPSILON -> damp target current dt = target.
Proof.
  intros H. unfold damp, JS.abs.
  destruct (Rlt_dec (Rabs (target - current)) EPSILON); [reflexivity|contradiction].
Qed.

Lemma damp_ease (target current dt : R) :
  EPSILON <= Rabs (target - current) ->
  damp target current dt = current + (target - current) * factor dt.
Proof.
  intros H. unfold damp, JS.abs.
  destruct (Rlt_dec (Rabs (target - current)) EPSILON); [lra|reflexivity].
Qed.

(** Outside the snap zone one frame multiplies the remaining distance by the
    decay. *)
Lemma damp_residual (target current dt : R) :
  EPSILON <= Rabs (target - current) ->
  target - damp target current dt
  = (target - current) * exp (- SMOOTHING * dt).
Proof. intros H. rewrite damp_ease by assumption. unfold factor. ring. Qed.

(** The new orientation is a convex combination of the old one and the
    target. *)
Lemma damp_between (target current dt : R) :
  0 <= dt ->
  Rmin current target <= damp target current dt <= Rmax current target.
Proof.
  intros Hdt. pose proof (factor_range dt Hdt) as Hf.
  unfold damp, JS.abs.
  destruct (Rlt_dec (Rabs (target - current)) EPSILON) as [_|_].
  - split; [apply Rmin_r | apply Rmax_r].
  - unfold Rmin, Rmax. destruct (Rle_dec current target); nra.
Qed.

Lemma damp_distance (target current dt : R) :
  0 <= dt ->
  Rabs (target - damp target current dt) <= Rabs (target - current).
Proof.
  intros Hdt.
  destruct (Rlt_dec (Rabs (target - current)) EPSILON) as [Hs|Hs].
  - rewrite damp_snap by assumption.
    replace (target - target) with 0 by ring. rewrite Rabs_R0. apply Rabs_pos.
  - rewrite damp_residual by lra.
    pose proof (decay_range dt Hdt) as Hd.
    rewrite Rabs_mult, (Rabs_pos_eq (exp _)) by lra.
    pose proof (Rabs_pos (target - current)). nra.
Qed.

(** As long as no earlier frame was in the snap zone, [n] frames of length
    [dt] multiply the initial distance by the [n]-th power of the decay. *)
Lemma frames_residual (target current dt : R) (n : nat) :
  0 <= dt ->
  (forall m, (m < n)%nat ->
     EPSILON <= Rabs (target - current) * exp (- SMOOTHING * dt) ^ m) ->
  target - frames n target current dt
  = (target - current) * exp (- SMOOTHING * dt) ^ n.
Proof.
  intros Hdt. pose proof (decay_range dt Hdt) as Hd.
  induction n as [|n IH]; intros Hbefore; cbn [frames pow].
  - ring.
  - assert (IHn := IH (fun m Hm => Hbefore m (Nat.lt_lt_succ_r _ _ Hm))).
    rewrite damp_residual.
    + rewrite IHn. ring.
    + rewrite IHn, Rabs_mult, (Rabs_pos_eq (_ ^ n)).
      * apply Hbefore. lia.
      * apply pow_le. lra.
Qed.

(** For a positive [dt] some power of the decay brings any distance into the
    snap zone, and there is a first such power. *)
Lemma first_frame_in_snap_zone (d dt : R) :
  0 < dt ->
  exists N : nat,
    Rabs d * exp (- SMOOTHING * dt) ^ N < EPSILON /\
    forall m, (m < N)%nat -> EPSILON <= Rabs d * exp (- SMOOTHING * dt) ^ m.
Proof.
  intros Hdt. set (q := exp (- SMOOTHING * dt)).
  assert (Hq : 0 < q < 1) by (split; [apply exp_pos | now apply decay_lt_1]).
  assert (Heps : 0 < EPSILON) by (unfold EPSILON; lra).
  set (P := fun n : nat => Rabs d * q ^ n < EPSILON).
  assert (Hex : exists n, P n).
  { destruct (Req_dec d 0) as [->|Hd].
    - exists 0%nat. unfold P. rewrite Rabs_R0. lra.
    - assert (Hd' : 0 < Rabs d) by now apply Rabs_pos_lt.
      destruct (pow_lt_1_zero q) with (y := EPSILON / Rabs d) as [N HN].
      + rewrite Rabs_pos_eq; lra.
      + now apply Rdiv_lt_0_compat.
      + exists N. unfold P. specialize (HN N (le_n N)).
        rewrite Rabs_pos_eq in HN by (apply pow_le; lra).
        apply (Rmult_lt_compat_l (Rabs d)) in HN; [|assumption].
        replace (Rabs d * (EPSILON / Rabs d)) with EPSILON in HN
          by (field; lra).
        exact HN. }
  destruct (dec_inh_nat_subset_has_unique_least_element P) as [N [[HP Hleast] _]].
  - intros n. unfold P. destruct (Rlt_dec (Rabs d * q ^ n) EPSILON); tauto.
  - exact Hex.
  - exists N. split; [exact HP|].
    intros m Hm. destruct (Rlt_le_dec (Rabs d * q ^ m) EPSILON) as [Hlt|Hle].
    + specialize (Hleast m Hlt). lia.
    + exact Hle.
Qed.

(** For a positive [dt] the follower reaches any target from any start in
    finitely many frames. *)
Lemma damping_reaches_target (target current dt : R) :
  0 < dt -> exists N : nat, frames (S N) target current dt = target.
Proof.
  intros Hdt.
  destruct (first_frame_in_snap_zone (target - current) dt Hdt)
    as (N & HN & Hbefore).
  exists N. cbn [frames]. apply damp_snap.
  rewrite (frames_residual target current dt N) by (try lra; assumption).
  rewrite Rabs_mult, (Rabs_pos_eq (_ ^ N)); [exact HN|].
  apply pow_le. left. apply exp_pos.
Qed.

End Damping.

(** C3. For every target (the accumulated rotation), every current
    orientation of a mounted group and every [dt > 0], one [useFrame] call
    sets the orientation to the target itself when
    [|target - current| < 0.0005], and otherwise to
    [current + (target - current) * (1 - exp (-5 * dt))]. *)
Theorem frame_snaps_or_eases (refs : Refs) (g : Three.Group) (dt : R) :
  0 < dt ->
  let target := accumulatedRef refs in
  let current := Three.rotation_y g in
  (Rabs (target - current) < 0.0005 ->
     useFrame refs (Some g) dt = Some (Three.set_rotation_y g target)) /\
  (~ Rabs (target - current) < 0.0005 ->
     useFrame refs (Some g) dt
     = Some (Three.set_rotation_y g
               (current + (target - current) * (1 - exp (- 5 * dt))))).
Proof.
  intros _ target current. split; intros H; cbn [useFrame]; do 2 f_equal.
  - now apply damp_snap.
  - apply damp_ease. unfold EPSILON. fold target current. lra.
Qed.

Lemma frame_snaps_or_eases_examples :
  useFrame (mkRefs 0 1) (Some (Three.mkGroup 0.9999 12 None)) 0.016
  = Some (Three.mkGroup 1 12 None)
  /\ useFrame (mkRefs 0 1) (Some (Three.mkGroup 0 12 None)) 0.016
     = Some (Three.mkGroup (0 + (1 - 0) * (1 - exp (- 5 * 0.016))) 12 None).
Proof.
  split.
  - apply (frame_snaps_or_eases (mkRefs 0 1) (Three.mkGroup 0.9999 12 None) 0.016).
    + lra.
    + cbn. replace (1 - 0.9999) with 0.0001 by lra.
      rewrite Rabs_pos_eq; lra.
  - apply (frame_snaps_or_eases (mkRefs 0 1) (Three.mkGroup 0 12 None) 0.016).
    + lra.
    + cbn. replace (1 - 0) with 1 by lra. rewrite Rabs_R1. lra.
Defined.

(** C8. With [dt = 0] the interpolation factor [1 - exp (-5 * 0)] is [0],
    and outside the snap zone the [useFrame] call leaves the group as it
    was.  [useFrame] is a total function that involves no division. *)
Theorem paused_clock_keeps_orientation (refs : Refs) (g : Three.Group) :
  EPSILON <= Rabs (accumulatedRef refs - Three.rotation_y g) ->
  factor 0 = 0 /\ 1 - exp (- 5 * 0) = 0 /\ useFrame refs (Some g) 0 = Some g.
Proof.
  intros H. split; [apply factor_0|]. split; [apply factor_0|].
  cbn [useFrame]. rewrite damp_ease by assumption.
  rewrite factor_0. destruct g as [ry ch bs].
  unfold Three.set_rotation_y. cbn. do 2 f_equal. ring.
Qed.

Lemma paused_clock_keeps_orientation_example :
  useFrame (mkRefs 0 1) (Some (Three.mkGroup 0 12 None)) 0
  = Some (Three.mkGroup 0 12 None).
Proof.
  apply (paused_clock_keeps_orientation (mkRefs 0 1) (Three.mkGroup 0 12 None)).
  cbn. unfold EPSILON. replace (1 - 0) with 1 by lra. rewrite Rabs_R1. lra.
Defined.

(** C10. For every target, every current orientation and every [dt >= 0], the
    interpolation factor lies in [0,1), the orientation after one frame lies
    between the previous orientation and the target (ends included), and the
    distance to the target does not grow. *)
Theorem damp_never_overshoots (target current dt : R) :
  0 <= dt ->
  0 <= 1 - exp (- 5 * dt) < 1 /\
  Rmin current target <= damp target current dt <= Rmax current target /\
  Rabs (target - damp target current dt) <= Rabs (target - current).
Proof.
  intros Hdt. split; [apply (factor_range dt Hdt)|].
  split; [now apply damp_between | now apply damp_distance].
Qed.

Lemma damp_never_overshoots_example :
  Rmin 0 1 <= damp 1 0 0.016 <= Rmax 0 1.
Proof.
  apply (damp_never_overshoots 1 0 0.016). lra.
Defined.

(** ** The tick count of the reference run *)

Section TickCount.

Lemma exp_pow_nat (x : R) (n : nat) : exp x ^ n = exp (INR n * x).
Proof.
  induction n as [|n IH].
  - cbn. now rewrite Rmult_0_l, exp_0.
  - rewrite S_INR. cbn [pow]. rewrite IH, <- exp_plus. f_equal. ring.
Qed.

(** Rational bounds on the decay of one frame of 16 ms. *)
Lemma decay_16ms :
  0.92311 <= exp (- SMOOTHING * 0.016) <= (/ 1.01) ^ 8.
Proof.
  assert (E512 : - SMOOTHING * 0.016 = INR 512 * - 0.00015625)
    by (rewrite (INR_IZR_INZ 512); unfold SMOOTHING; cbn; lra).
  assert (E8 : - SMOOTHING * 0.016 = INR 8 * - 0.01)
    by (rewrite (INR_IZR_INZ 8); unfold SMOOTHING; cbn; lra).
  split.
  - rewrite E512, <- exp_pow_nat.
    apply Rle_trans with ((1 + - 0.00015625) ^ 512); [lra|].
    apply pow_incr. split; [lra | apply exp_ineq1_le].
  - rewrite E8, <- exp_pow_nat.
    apply pow_incr. split; [left; apply exp_pos|].
    replace (exp (- 0.01)) with (/ exp 0.01)
      by (rewrite <- exp_Ropp; f_equal; lra).
    left. apply Rinv_lt_contravar.
    + pose proof (exp_pos 0.01). lra.
    + pose proof (exp_ineq1 0.01). lra.
Qed.

Lemma pow_antitone (q : R) (m n : nat) :
  0 <= q <= 1 -> (m <= n)%nat -> q ^ n <= q ^ m.
Proof.
  intros Hq Hmn. replace n with (m + (n - m))%nat by lia.
  rewrite pow_add.
  assert (0 <= q ^ m) by (apply pow_le; lra).
  assert (0 <= q ^ (n - m) <= 1).
  { split; [apply pow_le; lra|].
    rewrite <- (pow1 (n - m)). apply pow_incr. lra. }
  nra.
Qed.

(** With frames of 16 ms a unit distance is still outside the snap zone
    after 95 frames and inside it after 96. *)
Lemma snap_zone_after_96 :
  (forall m, (m < 96)%nat ->
     EPSILON <= Rabs (1 - 0) * exp (- SMOOTHING * 0.016) ^ m) /\
  Rabs (1 - 0) * exp (- SMOOTHING * 0.016) ^ 96 < EPSILON.
Proof.
  destruct decay_16ms as [Hlo Hhi]. set (q := exp (- SMOOTHING * 0.016)) in *.
  assert (Hq : 0 < q < 1).
  { split; [apply exp_pos | apply decay_lt_1; lra]. }
  replace (Rabs (1 - 0)) with 1
    by (replace (1 - 0) with 1 by ring; now rewrite Rabs_R1).
  unfold EPSILON. split.
  - intros m Hm. rewrite Rmult_1_l.
    apply Rle_trans with (q ^ 95); [|apply pow_antitone; [lra|lia]].
    apply Rle_trans with (0.92311 ^ 95); [lra|].
    apply pow_incr. lra.
  - rewrite Rmult_1_l.
    apply Rle_lt_trans with (((/ 1.01) ^ 8) ^ 96); [|lra].
    apply pow_incr. lra.
Qed.

End TickCount.

(** C6. From [current = 0] toward [target = 1] with frames of [dt = 0.016]:
    there is a positive tick count [N] (it is 96) such that before tick [N]
    the distance to the target is still at least [EPSILON], after [N] ticks it
    is below [EPSILON], every tick up to and including the snap strictly
    decreases it, and the snap puts the orientation onto the target. *)
Theorem damping_converges :
  let dist := fun n : nat => Rabs (1 - frames n 1 0 0.016) in
  exists N : nat,
    (0 < N)%nat /\ N = 96%nat /\
    (forall n, (n < N)%nat -> EPSILON <= dist n) /\
    (forall n, (n <= N)%nat -> dist (S n) < dist n) /\
    dist N < EPSILON /\
    frames (S N) 1 0 0.016 = 1.
Proof.
  intros dist.
  assert (Hdt : 0 < 0.016) by lra.
  destruct snap_zone_after_96 as [Hbefore HN].
  set (q := exp (- SMOOTHING * 0.016)) in *.
  set (N := 96%nat) in *.
  assert (Hq : 0 < q < 1) by (split; [apply exp_pos | now apply decay_lt_1]).
  assert (Hdist : forall n, (n <= N)%nat -> dist n = q ^ n).
  { intros n Hn. unfold dist.
    rewrite (frames_residual 1 0 0.016 n) by
      (try lra; intros m Hm; apply Hbefore; lia).
    fold q. rewrite Rabs_mult, (Rabs_pos_eq (q ^ n)) by (apply pow_le; lra).
    replace (1 - 0) with 1 by ring. rewrite Rabs_R1. ring. }
  assert (H1 : Rabs (1 - 0) = 1) by (replace (1 - 0) with 1 by ring; apply Rabs_R1).
  rewrite H1 in HN.
  assert (Hsnap : frames (S N) 1 0 0.016 = 1).
  { cbn [frames]. apply damp_snap. fold (dist N). rewrite Hdist by lia. lra. }
  exists N. repeat split.
  - unfold N. lia.
  - intros n Hn. rewrite Hdist by lia. specialize (Hbefore n Hn).
    rewrite H1 in Hbefore. lra.
  - intros n Hn. assert (Hpos : 0 < q ^ n) by (apply pow_lt; lra).
    destruct (Nat.eq_dec n N) as [->|Hne].
    + unfold dist at 1. rewrite Hsnap.
      replace (1 - 1) with 0 by ring. rewrite Rabs_R0, Hdist by lia. exact Hpos.
    + rewrite !Hdist by lia. cbn [pow]. nra.
  - rewrite Hdist by lia. lra.
  - exact Hsnap.
Qed.

(** ** Camera auto-framing *)

Import Three AutoFrameCamera.

Section AutoFraming.

(** Half of the field of view is 37.5 degrees, below a right angle. *)
Lemma half_fov : degToRad CAMERA_FOV / 2 = 37.5 * (PI / 180).
Proof. unfold degToRad, CAMERA_FOV. lra. Qed.

Lemma tan_half_fov_range : 0 < tan (degToRad CAMERA_FOV / 2) < 1.
Proof.
  pose proof PI_RGT_0 as Hpi. rewrite half_fov. split.
  - apply tan_gt_0; lra.
  - rewrite <- tan_PI4. apply tan_increasing; lra.
Qed.

Lemma frameDistance_narrow (sphereRadius width : R) :
  width < MOBILE_BREAKPOINT ->
  frameDistance sphereRadius width
  = baseDistance sphereRadius * MOBILE_DISTANCE_FACTOR.
Proof.
  intros H. unfold frameDistance.
  destruct (Rlt_dec width MOBILE_BREAKPOINT); [reflexivity|contradiction].
Qed.

Lemma frameDistance_wide (sphereRadius width : R) :
  ~ width < MOBILE_BREAKPOINT ->
  frameDistance sphereRadius width = baseDistance sphereRadius.
Proof.
  intros H. unfold frameDistance.
  destruct (Rlt_dec width MOBILE_BREAKPOINT); [contradiction|reflexivity].
Qed.

(** An animation frame with a request outstanding and a non-empty bounding
    volume carries out the framing with [frameDistance]. *)
Lemma step_frames (s : State) (g : Group) (sphere : Sphere) (width : R) :
  pending s = Some width -> boundingSphere g = Some sphere ->
  snd (step s (AnimationFrame (Some g)))
  = Some (frameDistance (radius sphere) width)
  /\ hasFramed (fst (step s (AnimationFrame (Some g)))) = true.
Proof.
  intros Hp Hb. cbn [step]. rewrite Hp. cbn [callback]. rewrite Hb.
  split; reflexivity.
Qed.

Lemma quiescent_step (s : State) (e : Event) :
  quiescent s -> quiescent (fst (step s e)).
Proof.
  unfold quiescent. intros Hs.
  destruct e as [[g|] width|[g|]|]; cbn.
  - destruct (hasFramed s || Nat.eqb (children g) 0) eqn:E; cbn.
    + reflexivity.
    + apply orb_false_elim in E. destruct E as [E _]. congruence.
  - reflexivity.
  - destruct (pending s) as [w|] eqn:Ep; [|cbn; now rewrite Ep].
    cbn. destruct (boundingSphere g); reflexivity.
  - destruct (pending s) as [w|] eqn:Ep; [|cbn; now rewrite Ep]. reflexivity.
  - reflexivity.
Qed.

(** In a framed, quiescent state no event carries out a framing and the
    flag stays set. *)
Lemma framed_step (s : State) (e : Event) :
  quiescent s -> hasFramed s = true ->
  snd (step s e) = None /\ hasFramed (fst (step s e)) = true.
Proof.
  intros Hq Hf. specialize (Hq Hf).
  destruct e as [[g|] width|g|]; cbn.
  - rewrite Hf. cbn. auto.
  - auto.
  - rewrite Hq. auto.
  - auto.
Qed.

Lemma run_cons (s : State) (e : Event) (es : list Event) :
  run s (e :: es)
  = (fst (run (fst (step s e)) es),
     match snd (step s e) with
     | Some d => d :: snd (run (fst (step s e)) es)
     | None => snd (run (fst (step s e)) es)
     end).
Proof.
  cbn [run]. destruct (step s e) as [s1 o].
  cbn [fst snd]. destruct (run s1 es) as [s2 os]. reflexivity.
Qed.

Lemma run_app (s : State) (es1 es2 : list Event) :
  run s (es1 ++ es2)
  = (fst (run (fst (run s es1)) es2),
     snd (run s es1) ++ snd (run (fst (run s es1)) es2)).
Proof.
  revert s. induction es1 as [|e es1 IH]; intros s.
  - cbn. now destruct (run s es2).
  - cbn [app]. rewrite !run_cons, IH. cbn [fst snd].
    destruct (snd (step s e)); reflexivity.
Qed.

Lemma quiescent_run (es : list Event) (s : State) :
  quiescent s -> quiescent (fst (run s es)).
Proof.
  revert s. induction es as [|e es IH]; intros s Hs; [exact Hs|].
  rewrite run_cons. cbn [fst]. apply IH. now apply quiescent_step.
Qed.

Lemma framed_run (es : list Event) (s : State) :
  quiescent s -> hasFramed s = true ->
  snd (run s es) = [] /\ hasFramed (fst (run s es)) = true.
Proof.
  revert s. induction es as [|e es IH]; intros s Hq Hf; [now split|].
  rewrite run_cons. cbn [fst snd].
  destruct (framed_step s e Hq Hf) as [Ho Hf'].
  rewrite Ho. apply IH; [now apply quiescent_step | exact Hf'].
Qed.

(** An event that carries out a framing sets the flag. *)
Lemma step_output_framed (s : State) (e : Event) (d : R) :
  snd (step s e) = Some d -> hasFramed (fst (step s e)) = true.
Proof.
  destruct e as [g width|[g|]|]; cbn [step fst snd]; try discriminate.
  - destruct (pending s); [|discriminate].
    cbn [callback]. destruct (boundingSphere g); [reflexivity|discriminate].
  - destruct (pending s); discriminate.
Qed.

Lemma at_most_one_framing (es : list Event) (s : State) :
  quiescent s -> (length (snd (run s es)) <= 1)%nat.
Proof.
  revert s. induction es as [|e es IH]; intros s Hq; [cbn; lia|].
  rewrite run_cons. cbn [snd].
  pose proof (quiescent_step s e Hq) as Hq'.
  destruct (snd (step s e)) as [d|] eqn:Ho.
  - destruct (framed_run es _ Hq' (step_output_framed s e d Ho)) as [-> _].
    cbn. lia.
  - now apply IH.
Qed.

Lemma quiescent_initial (cam : Camera) (ctl : option OrbitControls) :
  quiescent (initial cam ctl).
Proof. unfold quiescent. cbn. discriminate. Qed.

End AutoFraming.

(** C4. For every bounding-sphere radius, the framing carried out by the
    scheduled callback uses the distance
    [max ((radius * 0.7) / tan (fov / 2)) 5] with [fov] = 75 degrees,
    multiplied by [1.35] when the viewport width captured with the request is
    strictly below 1000 and left as it is otherwise; for radius 10 the
    un-multiplied distance is [max ((10 * 0.7) / tan 37.5°) 5], which is
    [7 / tan 37.5°]. *)
Theorem framing_distance (s : State) (g : Group) (sphere : Sphere) (width : R) :
  pending s = Some width -> boundingSphere g = Some sphere ->
  let fov := 75 * (PI / 180) in
  let distance := Rmax ((radius sphere * 0.7) / tan (fov / 2)) 5 in
  (width < 1000 ->
     snd (step s (AnimationFrame (Some g))) = Some (distance * 1.35)) /\
  (~ width < 1000 ->
     snd (step s (AnimationFrame (Some g))) = Some distance) /\
  baseDistance 10 = Rmax ((10 * 0.7) / tan (37.5 * (PI / 180))) 5 /\
  baseDistance 10 = 7 / tan (37.5 * (PI / 180)).
Proof.
  intros Hp Hb fov distance.
  destruct (step_frames s g sphere width Hp Hb) as [Hstep _].
  assert (Hbase : forall r, baseDistance r
                    = Rmax ((r * 0.7) / tan (75 * (PI / 180) / 2)) 5)
    by reflexivity.
  assert (H10 : baseDistance 10 = Rmax ((10 * 0.7) / tan (37.5 * (PI / 180))) 5).
  { rewrite Hbase. do 3 f_equal. lra. }
  repeat split.
  - intros Hw. rewrite Hstep, frameDistance_narrow by exact Hw. reflexivity.
  - intros Hw. rewrite Hstep, frameDistance_wide by exact Hw. reflexivity.
  - exact H10.
  - rewrite H10. pose proof tan_half_fov_range as [Hlo Hhi].
    rewrite half_fov in Hlo, Hhi.
    replace (10 * 0.7) with 7 by lra.
    apply Rmax_left.
    apply (Rmult_le_reg_r (tan (37.5 * (PI / 180)))); [exact Hlo|].
    replace (7 / tan (37.5 * (PI / 180)) * tan (37.5 * (PI / 180))) with 7
      by (field; lra).
    lra.
Qed.

Lemma framing_distance_narrow_viewport :
  snd (step (mkState false (Some 800) (mkCamera (mkVector3 0 8 14) None) None)
            (AnimationFrame
               (Some (mkGroup 0 12 (Some (mkSphere (mkVector3 0 0 0) 10))))))
  = Some (Rmax ((10 * 0.7) / tan (75 * (PI / 180) / 2)) 5 * 1.35).
Proof.
  apply (framing_distance
           (mkState false (Some 800) (mkCamera (mkVector3 0 8 14) None) None)
           (mkGroup 0 12 (Some (mkSphere (mkVector3 0 0 0) 10)))
           (mkSphere (mkVector3 0 0 0) 10) 800);
    [reflexivity | reflexivity | lra].
Defined.

(** C5. Take any history of effect runs, animation frames and cleanups of a
    mounted component after which the [hasFramed] flag is set.  Then in every
    continuation no event carries out the framing again and the flag is still
    set at the end; over the whole run the framing is carried out at most
    once. *)
Theorem framed_is_terminal
    (cam : Camera) (ctl : option OrbitControls) (history later : list Event) :
  let s := fst (run (initial cam ctl) history) in
  hasFramed s = true ->
  snd (run s later) = [] /\
  hasFramed (fst (run s later)) = true /\
  hasFramed (fst (run (initial cam ctl) (history ++ later))) = true /\
  (length (snd (run (initial cam ctl) (history ++ later))) <= 1)%nat.
Proof.
  intros s Hf.
  assert (Hq : quiescent s) by apply quiescent_run, quiescent_initial.
  destruct (framed_run later s Hq Hf) as [Hnone Hstill].
  repeat split.
  - exact Hnone.
  - exact Hstill.
  - rewrite run_app. exact Hstill.
  - apply at_most_one_framing, quiescent_initial.
Qed.

Lemma framed_is_terminal_example :
  hasFramed
    (fst (run (initial (mkCamera (mkVector3 0 8 14) None) None)
              [EffectRun None 1200;
               EffectRun (Some (mkGroup 0 12 (Some (mkSphere (mkVector3 0 0 0) 10)))) 1200;
               AnimationFrame (Some (mkGroup 0 12 (Some (mkSphere (mkVector3 0 0 0) 10))))]))
  = true
  /\
  snd (run
         (fst (run (initial (mkCamera (mkVector3 0 8 14) None) None)
              [EffectRun None 1200;
               EffectRun (Some (mkGroup 0 12 (Some (mkSphere (mkVector3 0 0 0) 10)))) 1200;
               AnimationFrame (Some (mkGroup 0 12 (Some (mkSphere (mkVector3 0 0 0) 10))))]))
         [EffectRun (Some (mkGroup 0 12 (Some (mkSphere (mkVector3 0 0 0) 10)))) 800;
          AnimationFrame (Some (mkGroup 0 12 (Some (mkSphere (mkVector3 0 0 0) 10))));
          Cleanup;
          AnimationFrame (Some (mkGroup 0 12 (Some (mkSphere (mkVector3 0 0 0) 10))))])
  = [].
Proof.
  split; [reflexivity|].
  apply (framed_is_terminal (mkCamera (mkVector3 0 8 14) None) None
           [EffectRun None 1200;
            EffectRun (Some (mkGroup 0 12 (Some (mkSphere (mkVector3 0 0 0) 10)))) 1200;
            AnimationFrame (Some (mkGroup 0 12 (Some (mkSphere (mkVector3 0 0 0) 10))))]).
  reflexivity.
Defined.

(** * Further properties of the code *)

(** ** Side indices *)

Section SideCycle.

Lemma getNextSide_mod (s : Z) :
  (-1 <= s)%Z -> getNextSide s = ((s + 1) mod 6)%Z.
Proof. intros H. unfold getNextSide, SIDES. apply Z.rem_mod_nonneg; lia. Qed.

Lemma getPrevSide_mod (s : Z) :
  (-5 <= s)%Z -> getPrevSide s = ((s - 1) mod 6)%Z.
Proof.
  intros H. unfold getPrevSide, SIDES. rewrite Z.rem_mod_nonneg by lia.
  replace (s - 1 + 6)%Z with (s - 1 + 1 * 6)%Z by lia. apply Z_mod_plus_full.
Qed.

Lemma iter_getNextSide (s : Z) (k : nat) :
  validSide s -> Nat.iter k getNextSide s = ((s + Z.of_nat k) mod 6)%Z.
Proof.
  intros Hs. unfold validSide, SIDES in Hs. induction k as [|k IH].
  - cbn. rewrite Z.add_0_r. symmetry. apply Z.mod_small. lia.
  - rewrite Nat.iter_succ, IH.
    rewrite getNextSide_mod by (pose proof (Z.mod_pos_bound (s + Z.of_nat k) 6); lia).
    rewrite Zplus_mod_idemp_l. f_equal. lia.
Qed.

Lemma iter_getPrevSide (s : Z) (k : nat) :
  validSide s -> Nat.iter k getPrevSide s = ((s - Z.of_nat k) mod 6)%Z.
Proof.
  intros Hs. unfold validSide, SIDES in Hs. induction k as [|k IH].
  - cbn. rewrite Z.sub_0_r. symmetry. apply Z.mod_small. lia.
  - rewrite Nat.iter_succ, IH.
    rewrite getPrevSide_mod by (pose proof (Z.mod_pos_bound (s - Z.of_nat k) 6); lia).
    rewrite Zminus_mod_idemp_l. f_equal. lia.
Qed.

End SideCycle.

(** X1. On a valid side, [k] forward steps lead to side [(s + k) mod 6] and
    [k] backward steps to side [(s - k) mod 6]; six steps in either
    direction come back to the start. *)
Theorem side_steps_cycle (s : Z) (k : nat) :
  validSide s ->
  Nat.iter k getNextSide s = ((s + Z.of_nat k) mod 6)%Z /\
  Nat.iter k getPrevSide s = ((s - Z.of_nat k) mod 6)%Z /\
  Nat.iter 6 getNextSide s = s /\
  Nat.iter 6 getPrevSide s = s.
Proof.
  intros Hs. split; [now apply iter_getNextSide|].
  split; [now apply iter_getPrevSide|].
  rewrite iter_getNextSide, iter_getPrevSide by assumption.
  unfold validSide, SIDES in Hs.
  change (Z.of_nat 6) with (1 * 6)%Z. split.
  - rewrite Z_mod_plus_full. apply Z.mod_small. lia.
  - replace (s - 1 * 6)%Z with (s + (-1) * 6)%Z by lia.
    rewrite Z_mod_plus_full. apply Z.mod_small. lia.
Qed.

Lemma side_steps_cycle_from_4 :
  Nat.iter 8 getNextSide 4%Z = ((4 + Z.of_nat 8) mod 6)%Z.
Proof.
  apply (side_steps_cycle 4 8). unfold validSide, SIDES. lia.
Defined.

(** X2. The wrap only covers the indices the page produces.  [getNextSide]
    returns a valid side for every integer from [-1] up and [getPrevSide]
    for every integer from [-5] up; below that the remainder keeps the sign
    of its dividend and the result is never positive. *)
Theorem side_steps_outside_range (s : Z) :
  ((-1 <= s)%Z -> validSide (getNextSide s)) /\
  ((s < -1)%Z -> (-6 < getNextSide s <= 0)%Z) /\
  ((-5 <= s)%Z -> validSide (getPrevSide s)) /\
  ((s < -5)%Z -> (-6 < getPrevSide s <= 0)%Z).
Proof.
  unfold validSide, getNextSide, getPrevSide, SIDES.
  split; [|split; [|split]]; intros H.
  - pose proof (Z.rem_bound_pos (s + 1) 6). lia.
  - pose proof (Z.rem_bound_pos_neg (s + 1) 6). lia.
  - pose proof (Z.rem_bound_pos (s - 1 + 6) 6). lia.
  - pose proof (Z.rem_bound_pos_neg (s - 1 + 6) 6). lia.
Qed.

Lemma side_steps_outside_range_examples :
  validSide (getNextSide 17) /\ (-6 < getNextSide (-3) <= 0)%Z /\
  validSide (getPrevSide (-5)) /\ (-6 < getPrevSide (-8) <= 0)%Z.
Proof.
  split; [|split; [|split]].
  - apply (side_steps_outside_range 17). lia.
  - apply (side_steps_outside_range (-3)). lia.
  - apply (side_steps_outside_range (-5)). lia.
  - apply (side_steps_outside_range (-8)). lia.
Defined.

(** X3. On valid sides the canonical angle lies in [0, 2π), and two valid
    sides whose angles differ by a whole number of turns are the same side:
    no two sides share an orientation. *)
Theorem side_angles_distinct (s t : Z) (k : Z) :
  validSide s -> validSide t ->
  0 <= getRotationAngle s < 2 * PI /\
  (getRotationAngle s = getRotationAngle t + 2 * PI * IZR k -> s = t).
Proof.
  intros Hs Ht. pose proof PI_RGT_0 as Hpi.
  unfold validSide, SIDES in Hs, Ht.
  unfold getRotationAngle, Rotation.ANGLE_PER_SIDE, SIDES.
  assert (H0 : 0 <= IZR s) by (apply IZR_le; lia).
  assert (H6 : IZR s <= 5) by (apply IZR_le; lia).
  split; [split; nra|].
  intros E.
  assert (EZ : IZR s = IZR (t + 6 * k)).
  { rewrite plus_IZR, mult_IZR.
    apply (Rmult_eq_reg_r (2 * PI / 6)); [|lra]. lra. }
  apply eq_IZR in EZ. lia.
Qed.

Lemma side_angles_distinct_example :
  0 <= getRotationAngle 2 < 2 * PI.
Proof.
  apply (side_angles_distinct 2 5 0); unfold validSide, SIDES; lia.
Defined.

(** X4. The canonical angle of the next side is a sixth of a turn further,
    except from side 5, where it falls back to the angle of side 0; the
    canonical angle of the previous side is a sixth of a turn back, except
    from side 0, where it jumps up to the angle of side 5. *)
Theorem neighbour_angles (s : Z) :
  validSide s ->
  ((s < 5)%Z ->
     getRotationAngle (getNextSide s) = getRotationAngle s + 2 * PI / 6) /\
  (s = 5%Z ->
     getRotationAngle (getNextSide s) = getRotationAngle s + 2 * PI / 6 - 2 * PI) /\
  ((0 < s)%Z ->
     getRotationAngle (getPrevSide s) = getRotationAngle s - 2 * PI / 6) /\
  (s = 0%Z ->
     getRotationAngle (getPrevSide s) = getRotationAngle s - 2 * PI / 6 + 2 * PI).
Proof.
  intros Hs.
  destruct (validSide_cases s Hs) as [->|[->|[->|[->|[->| ->]]]]];
    repeat split; intros H; try lia;
    unfold getRotationAngle, Rotation.ANGLE_PER_SIDE, SIDES; cbn; lra.
Qed.

Lemma neighbour_angles_wrap :
  getRotationAngle (getNextSide 5) = getRotationAngle 5 + 2 * PI / 6 - 2 * PI.
Proof.
  apply (neighbour_angles 5); [unfold validSide, SIDES; lia | reflexivity].
Defined.

(** ** The page drives the accumulated rotation *)

Section PageRuns.

Lemma compassSegments_valid (i : Z) : In i Page.compassSegments -> validSide i.
Proof.
  unfold Page.compassSegments, Page.COMPASS_SIDES. intros H.
  apply in_map_iff in H. destruct H as (n & <- & Hn).
  apply in_seq in Hn. unfold validSide, SIDES. lia.
Qed.

Lemma setCurrentSide_valid (side : Z) (e : Page.UiEvent) :
  validSide side -> Page.rendered e -> validSide (Page.setCurrentSide side e).
Proof.
  intros Hs He. destruct e as [| |i]; cbn in *.
  - now apply getPrevSide_valid.
  - now apply getNextSide_valid.
  - now apply compassSegments_valid.
Qed.

Lemma inStep_step (s : Page.State) (e : Page.UiEvent) :
  Page.inStep s -> Page.rendered e -> Page.inStep (Page.step s e).
Proof.
  intros [Hv _] He. split; cbn.
  - now apply setCurrentSide_valid.
  - apply onSideChanged_prevSideRef.
Qed.

Lemma inStep_run (es : list Page.UiEvent) (s : Page.State) :
  Page.inStep s -> Forall Page.rendered es -> Page.inStep (Page.run s es).
Proof.
  revert s. induction es as [|e es IH]; intros s Hs Hes; [exact Hs|].
  inversion Hes as [|? ? He Hes']; subst. cbn. apply IH; [|assumption].
  now apply inStep_step.
Qed.

(** A button click from a state in step takes the adjacent branch of the
    effect. *)
Lemma step_button (s : Page.State) (e : Page.UiEvent) :
  Page.inStep s -> Page.isButton e ->
  Page.currentSide (Page.step s e)
  = ((Page.currentSide s + Page.netSteps [e]) mod 6)%Z /\
  accumulatedRef (Page.refs (Page.step s e))
  = accumulatedRef (Page.refs s) + IZR (Page.netSteps [e]) * (2 * PI / 6).
Proof.
  intros [Hv Href] He.
  destruct (next_prev_distinct _ Hv) as (Hn & Hp & Hnp).
  assert (Hv' := Hv). unfold validSide, SIDES in Hv'.
  destruct e as [| |i]; [| |contradiction]; cbn [Page.step Page.setCurrentSide
    Page.currentSide Page.refs Page.netSteps].
  - split; [rewrite getPrevSide_mod by lia; f_equal; lia|].
    rewrite onSideChanged_backward; rewrite ?Href; auto.
    cbn. unfold CityGroup.ANGLE_PER_SIDE. lra.
  - split; [rewrite getNextSide_mod by lia; f_equal; lia|].
    rewrite onSideChanged_forward; rewrite ?Href; auto.
    cbn. unfold CityGroup.ANGLE_PER_SIDE. lra.
Qed.

Lemma run_buttons (es : list Page.UiEvent) (s : Page.State) :
  Page.inStep s -> Forall Page.isButton es ->
  Page.currentSide (Page.run s es)
  = ((Page.currentSide s + Page.netSteps es) mod 6)%Z /\
  accumulatedRef (Page.refs (Page.run s es))
  = accumulatedRef (Page.refs s) + IZR (Page.netSteps es) * (2 * PI / 6).
Proof.
  revert s. induction es as [|e es IH]; intros s Hs Hes.
  - cbn. destruct Hs as [Hv _]. unfold validSide, SIDES in Hv.
    rewrite Z.add_0_r, Z.mod_small by lia. split; [reflexivity|lra].
  - inversion Hes as [|? ? He Hes']; subst.
    assert (Hr : Page.rendered e) by (destruct e; cbn in *; tauto).
    destruct (step_button s e Hs He) as [Hc Ha].
    destruct (IH (Page.step s e) (inStep_step s e Hs Hr) Hes') as [Hc' Ha'].
    change (Page.run s (e :: es)) with (Page.run (Page.step s e) es).
    rewrite Hc', Ha', Hc, Ha.
    assert (Hnet : Page.netSteps (e :: es)
                   = (Page.netSteps [e] + Page.netSteps es)%Z)
      by (destruct e; cbn [Page.netSteps]; lia).
    rewrite Hnet, plus_IZR, Zplus_mod_idemp_l.
    split; [f_equal; lia | lra].
Qed.

Lemma inStep_mounted (side : Z) : validSide side -> Page.inStep (Page.mounted side).
Proof. intros H. split; [exact H | reflexivity]. Qed.

End PageRuns.

(** X5. Whatever sequence of previous/next clicks and compass selections the
    page receives after the scene mounted on a valid side, the current side
    is a valid side and the scene's [prevSideRef] holds it: no action takes
    the index out of [0,6). *)
Theorem current_side_stays_valid (side : Z) (es : list Page.UiEvent) :
  validSide side -> Forall Page.rendered es ->
  validSide (Page.currentSide (Page.run (Page.mounted side) es)) /\
  prevSideRef (Page.refs (Page.run (Page.mounted side) es))
  = Page.currentSide (Page.run (Page.mounted side) es).
Proof.
  intros Hs Hes. apply (inStep_run es); [now apply inStep_mounted | exact Hes].
Qed.

Lemma current_side_stays_valid_example :
  validSide
    (Page.currentSide
       (Page.run (Page.mounted 0)
          [Page.ClickPrevious; Page.SelectSegment 3; Page.ClickNext;
           Page.SelectSegment 0; Page.ClickPrevious])).
Proof.
  apply (current_side_stays_valid 0
           [Page.ClickPrevious; Page.SelectSegment 3; Page.ClickNext;
            Page.SelectSegment 0; Page.ClickPrevious]).
  - unfold validSide, SIDES. lia.
  - repeat constructor; cbn; tauto.
Defined.

(** X6. With previous/next clicks only, the rotation accumulates and is never
    reduced modulo a turn: after the clicks the current side is
    [(side + net) mod 6] and the accumulated rotation is the canonical angle
    of the starting side plus [net] sixths of a turn, where [net] counts next
    clicks minus previous clicks. *)
Theorem button_clicks_accumulate (side : Z) (es : list Page.UiEvent) :
  validSide side -> Forall Page.isButton es ->
  Page.currentSide (Page.run (Page.mounted side) es)
  = ((side + Page.netSteps es) mod 6)%Z /\
  accumulatedRef (Page.refs (Page.run (Page.mounted side) es))
  = getRotationAngle side + IZR (Page.netSteps es) * (2 * PI / 6).
Proof.
  intros Hs Hes.
  exact (run_buttons es (Page.mounted side) (inStep_mounted side Hs) Hes).
Qed.

Lemma button_clicks_accumulate_full_turn :
  Page.currentSide
    (Page.run (Page.mounted 0)
       [Page.ClickNext; Page.ClickNext; Page.ClickNext;
        Page.ClickNext; Page.ClickNext; Page.ClickNext])
  = ((0 + 6) mod 6)%Z /\
  accumulatedRef
    (Page.refs
       (Page.run (Page.mounted 0)
          [Page.ClickNext; Page.ClickNext; Page.ClickNext;
           Page.ClickNext; Page.ClickNext; Page.ClickNext]))
  = getRotationAngle 0 + IZR 6 * (2 * PI / 6).
Proof.
  apply (button_clicks_accumulate 0
           [Page.ClickNext; Page.ClickNext; Page.ClickNext;
            Page.ClickNext; Page.ClickNext; Page.ClickNext]).
  - unfold validSide, SIDES. lia.
  - repeat constructor.
Defined.

(** X7. Going from a valid side to a different valid side and straight back
    restores the stored side.  The accumulated rotation is restored as well
    when the two sides are at most two apart around the hexagon; when they
    are opposite, or four apart by index, the round trip leaves the
    accumulated rotation a whole turn lower. *)
Theorem there_and_back (refs : Refs) (next : Z) :
  validSide (prevSideRef refs) -> validSide next -> prevSideRef refs <> next ->
  let back := onSideChanged (onSideChanged refs next) (prevSideRef refs) in
  let apart := Z.abs (next - prevSideRef refs) in
  prevSideRef back = prevSideRef refs /\
  ((apart = 3 \/ apart = 4)%Z ->
     accumulatedRef back = accumulatedRef refs - 2 * PI) /\
  (~ (apart = 3 \/ apart = 4)%Z ->
     accumulatedRef back = accumulatedRef refs).
Proof.
  intros Hp Hn Hne back apart.
  split; [apply onSideChanged_prevSideRef|].
  destruct refs as [p a]. cbn [prevSideRef accumulatedRef] in *.
  unfold back, apart. clear back apart.
  destruct (validSide_cases _ Hp) as [->|[->|[->|[->|[->| ->]]]]];
    destruct (validSide_cases _ Hn) as [->|[->|[->|[->|[->| ->]]]]];
    try (exfalso; apply Hne; reflexivity);
    (split; intros H; cbn in H; try lia);
    unfold onSideChanged; cbn -[jumpDelta];
    repeat first [ rewrite jumpDelta_plus2 by reflexivity
                 | rewrite jumpDelta_plus3 by reflexivity
                 | rewrite jumpDelta_plus4 by reflexivity
                 | rewrite jumpDelta_minus2 by reflexivity
                 | rewrite jumpDelta_minus3 by reflexivity
                 | rewrite jumpDelta_minus4 by reflexivity ];
    unfold CityGroup.ANGLE_PER_SIDE; lra.
Qed.

Lemma there_and_back_opposite :
  accumulatedRef (onSideChanged (onSideChanged (mount 1) 4) 1)
  = accumulatedRef (mount 1) - 2 * PI.
Proof.
  apply (there_and_back (mount 1) 4);
    try (unfold validSide, SIDES; cbn; lia); cbn; lia.
Defined.

(** ** More on the damped follower *)

Section FollowerFacts.

(** An orientation already on the target stays there, whatever [dt]. *)
Lemma damp_at_target (target dt : R) : damp target target dt = target.
Proof.
  apply damp_snap. replace (target - target) with 0 by ring.
  rewrite Rabs_R0. unfold EPSILON. lra.
Qed.

Lemma frames_at_target (target dt : R) (n : nat) :
  frames n target target dt = target.
Proof.
  induction n as [|n IH]; [reflexivity|].
  cbn [frames]. rewrite IH. apply damp_at_target.
Qed.

Lemma frames_add (target current dt : R) (n m : nat) :
  frames (n + m) target current dt
  = frames n target (frames m target current dt) dt.
Proof.
  induction n as [|n IH]; [reflexivity|].
  cbn [Nat.add frames]. now rewrite IH.
Qed.

End FollowerFacts.

(** X8. A frame with [dt > 0] always makes progress: when the orientation is
    not yet on the target, the distance to the target strictly decreases, and
    the orientation moves toward the target without passing it. *)
Theorem frame_makes_progress (target current dt : R) :
  0 < dt -> current <> target ->
  Rabs (target - damp target current dt) < Rabs (target - current) /\
  (current < target -> current < damp target current dt <= target) /\
  (target < current -> target <= damp target current dt < current).
Proof.
  intros Hdt Hne.
  assert (Hq : 0 < exp (- SMOOTHING * dt) < 1)
    by (split; [apply exp_pos | now apply decay_lt_1]).
  assert (Hpos : 0 < Rabs (target - current))
    by (apply Rabs_pos_lt; lra).
  destruct (Rlt_dec (Rabs (target - current)) EPSILON) as [Hs|Hs].
  - rewrite damp_snap by assumption.
    replace (target - target) with 0 by ring. rewrite Rabs_R0.
    split; [exact Hpos|]. split; intros; lra.
  - assert (Hres := damp_residual target current dt (Rnot_lt_le _ _ Hs)).
    split.
    + rewrite Hres, Rabs_mult, (Rabs_pos_eq (exp _)) by lra. nra.
    + split; intros Hlt; nra.
Qed.

Lemma frame_makes_progress_example :
  Rabs (1 - damp 1 0 0.016) < Rabs (1 - 0).
Proof.
  apply (frame_makes_progress 1 0 0.016); lra.
Defined.

(** X9. The easing does not depend on how time is cut into frames: as long as
    the orientation is outside the snap zone before both frames, a frame of
    [dt1] followed by a frame of [dt2] gives the same orientation as one
    frame of [dt1 + dt2]. *)
Theorem frames_compose (target current dt1 dt2 : R) :
  EPSILON <= Rabs (target - current) ->
  EPSILON <= Rabs (target - damp target current dt1) ->
  damp target (damp target current dt1) dt2
  = damp target current (dt1 + dt2).
Proof.
  intros H1 H2.
  assert (R12 := damp_residual target (damp target current dt1) dt2 H2).
  assert (R1 := damp_residual target current dt1 H1).
  assert (R3 := damp_residual target current (dt1 + dt2) H1).
  replace (- SMOOTHING * (dt1 + dt2))
    with (- SMOOTHING * dt1 + - SMOOTHING * dt2) in R3 by ring.
  rewrite exp_plus in R3. rewrite R1 in R12.
  apply (Rplus_eq_reg_l (- target)).
  apply Ropp_eq_compat in R12. apply Ropp_eq_compat in R3.
  lra.
Qed.

Lemma frames_compose_example :
  damp 1 (damp 1 0 0.016) 0.016 = damp 1 0 (0.016 + 0.016).
Proof.
  assert (H1 : Rabs (1 - 0) = 1)
    by (replace (1 - 0) with 1 by ring; apply Rabs_R1).
  assert (H0 : EPSILON <= Rabs (1 - 0)) by (rewrite H1; unfold EPSILON; lra).
  apply (frames_compose 1 0 0.016 0.016 H0).
  rewrite (damp_residual 1 0 0.016 H0), Rabs_mult, H1.
  pose proof decay_16ms as [Hlo _].
  rewrite Rabs_pos_eq by lra. unfold EPSILON. lra.
Defined.

(** X10. For every target, every starting orientation and every frame length
    [dt > 0], the follower lands exactly on the target after finitely many
    frames and stays there on all later frames. *)
Theorem follower_settles (target current dt : R) :
  0 < dt ->
  exists N : nat,
    forall n : nat, (N <= n)%nat -> frames n target current dt = target.
Proof.
  intros Hdt. destruct (damping_reaches_target target current dt Hdt) as [N HN].
  exists (S N). intros n Hn.
  replace n with ((n - S N) + S N)%nat by lia.
  rewrite frames_add, HN. apply frames_at_target.
Qed.

Lemma follower_settles_example :
  exists N : nat,
    forall n : nat, (N <= n)%nat -> frames n (2 * PI) 0 0.016 = 2 * PI.
Proof.
  apply (follower_settles (2 * PI) 0 0.016). lra.
Defined.

(** ** More on the auto-framing *)

Section FramingFacts.

Lemma baseDistance_floor (sphereRadius : R) : 5 <= baseDistance sphereRadius.
Proof. unfold baseDistance, JS.max, MIN_CAMERA_DISTANCE. apply Rmax_r. Qed.

Lemma frameDistance_floor (sphereRadius width : R) :
  5 <= frameDistance sphereRadius width.
Proof.
  pose proof (baseDistance_floor sphereRadius) as H.
  unfold frameDistance. destruct (Rlt_dec width MOBILE_BREAKPOINT); [|exact H].
  unfold MOBILE_DISTANCE_FACTOR. lra.
Qed.

(** The state left by a framing animation frame. *)
Lemma step_framing_state (s : State) (g : Group) (sphere : Sphere) (width : R) :
  pending s = Some width -> boundingSphere g = Some sphere ->
  fst (step s (AnimationFrame (Some g)))
  = fst (callback (cancel s) (Some g) width)
  /\ camera (fst (step s (AnimationFrame (Some g))))
     = {| position :=
            mkVector3 (x (center sphere))
              (y (center sphere)
               + frameDistance (radius sphere) width * sin CAMERA_ELEVATION_ANGLE)
              (z (center sphere)
               + frameDistance (radius sphere) width * cos CAMERA_ELEVATION_ANGLE);
          lookingAt := Some (center sphere) |}
  /\ controls (fst (step s (AnimationFrame (Some g))))
     = match controls s with
       | None => None
       | Some _ =>
           Some {| target := center sphere;
                   minDistance := frameDistance (radius sphere) width * ZOOM_IN_FACTOR;
                   maxDistance := frameDistance (radius sphere) width |}
       end.
Proof.
  intros Hp Hb. cbn [step]. rewrite Hp. cbn [callback]. rewrite Hb.
  repeat split.
Qed.

Lemma elevation_quadrant :
  0 < sin CAMERA_ELEVATION_ANGLE /\ cos CAMERA_ELEVATION_ANGLE < 0.
Proof.
  pose proof PI_4. pose proof PI2_3_2. unfold CAMERA_ELEVATION_ANGLE. split.
  - apply sin_gt_0; lra.
  - apply cos_lt_0; lra.
Qed.

End FramingFacts.

(** X11. Whenever the framing is carried out, the distance used is at least
    5 (at least 6.75 on a viewport narrower than 1000) whatever the bounding
    radius, zero and negative radii included; and controls that are present
    get the sphere centre as target, the distance as [maxDistance] and 0.33
    of it as [minDistance], so that [0 < minDistance < maxDistance]. *)
Theorem framing_sets_zoom_bounds
    (s : State) (g : Group) (sphere : Sphere) (width : R) (c : OrbitControls) :
  pending s = Some width -> boundingSphere g = Some sphere ->
  controls s = Some c ->
  exists d : R,
    snd (step s (AnimationFrame (Some g))) = Some d /\
    5 <= d /\ (width < 1000 -> 6.75 <= d) /\
    controls (fst (step s (AnimationFrame (Some g))))
    = Some {| target := center sphere;
              minDistance := d * 0.33; maxDistance := d |} /\
    0 < d * 0.33 < d.
Proof.
  intros Hp Hb Hc. exists (frameDistance (radius sphere) width).
  destruct (step_frames s g sphere width Hp Hb) as [Hout _].
  destruct (step_framing_state s g sphere width Hp Hb) as (_ & _ & Hctl).
  pose proof (frameDistance_floor (radius sphere) width) as H5.
  split; [exact Hout|]. split; [exact H5|]. split; [|split].
  - intros Hw. rewrite frameDistance_narrow by exact Hw.
    pose proof (baseDistance_floor (radius sphere)).
    unfold MOBILE_DISTANCE_FACTOR. lra.
  - rewrite Hctl, Hc. reflexivity.
  - lra.
Qed.

Lemma framing_sets_zoom_bounds_example :
  exists d : R,
    snd (step (mkState false (Some 800) (mkCamera (mkVector3 0 8 14) None)
                 (Some (mkOrbitControls (mkVector3 0 0 0) 0 1)))
              (AnimationFrame
                 (Some (mkGroup 0 12 (Some (mkSphere (mkVector3 1 2 3) 0))))))
    = Some d /\
    5 <= d /\ (800 < 1000 -> 6.75 <= d) /\
    controls
      (fst (step (mkState false (Some 800) (mkCamera (mkVector3 0 8 14) None)
                    (Some (mkOrbitControls (mkVector3 0 0 0) 0 1)))
                 (AnimationFrame
                    (Some (mkGroup 0 12 (Some (mkSphere (mkVector3 1 2 3) 0)))))))
    = Some {| target := mkVector3 1 2 3;
              minDistance := d * 0.33; maxDistance := d |} /\
    0 < d * 0.33 < d.
Proof.
  apply (framing_sets_zoom_bounds
           (mkState false (Some 800) (mkCamera (mkVector3 0 8 14) None)
              (Some (mkOrbitControls (mkVector3 0 0 0) 0 1)))
           (mkGroup 0 12 (Some (mkSphere (mkVector3 1 2 3) 0)))
           (mkSphere (mkVector3 1 2 3) 0) 800
           (mkOrbitControls (mkVector3 0 0 0) 0 1));
    reflexivity.
Defined.

(** X12. The framing puts the camera in the vertical plane through the sphere
    centre, above the centre and on its negative-z side, at exactly the
    framing distance from it (which is the [maxDistance] given to the
    controls), and makes it look at the centre. *)
Theorem framing_places_camera
    (s : State) (g : Group) (sphere : Sphere) (width : R) :
  pending s = Some width -> boundingSphere g = Some sphere ->
  let cam := camera (fst (step s (AnimationFrame (Some g)))) in
  let c := center sphere in
  let d := frameDistance (radius sphere) width in
  lookingAt cam = Some c /\
  x (position cam) = x c /\
  y c < y (position cam) /\
  z (position cam) < z c /\
  (x (position cam) - x c) ^ 2 + (y (position cam) - y c) ^ 2
    + (z (position cam) - z c) ^ 2 = d ^ 2.
Proof.
  intros Hp Hb cam c d.
  destruct (step_framing_state s g sphere width Hp Hb) as (_ & Hcam & _).
  unfold cam. rewrite Hcam. cbn [lookingAt position x y z]. fold c d.
  pose proof (frameDistance_floor (radius sphere) width) as H5. fold d in H5.
  destruct elevation_quadrant as [Hsin Hcos].
  pose proof (sin2_cos2 CAMERA_ELEVATION_ANGLE) as Hsc. unfold Rsqr in Hsc.
  repeat split; nra.
Qed.

Lemma framing_places_camera_example :
  lookingAt
    (camera
       (fst (step (mkState false (Some 1200) (mkCamera (mkVector3 0 8 14) None) None)
                  (AnimationFrame
                     (Some (mkGroup 0 12 (Some (mkSphere (mkVector3 1 2 3) 10))))))))
  = Some (mkVector3 1 2 3).
Proof.
  apply (framing_places_camera
           (mkState false (Some 1200) (mkCamera (mkVector3 0 8 14) None) None)
           (mkGroup 0 12 (Some (mkSphere (mkVector3 1 2 3) 10)))
           (mkSphere (mkVector3 1 2 3) 10) 1200);
    reflexivity.
Defined.

Section FramingRuns.

(** An event that schedules nothing leaves no request outstanding. *)
Lemma schedulesNothing_pending (s : State) (e : Event) :
  Framing.schedulesNothing e -> pending (fst (step s e)) = None.
Proof.
  destruct e as [[g|] width|[g|]|]; cbn; intros H.
  - rewrite H. cbn. now rewrite orb_true_r.
  - reflexivity.
  - destruct (pending s) eqn:Ep; cbn; [|exact Ep].
    destruct (boundingSphere g); reflexivity.
  - destruct (pending s) eqn:Ep; cbn; [reflexivity|exact Ep].
  - reflexivity.
Qed.

(** Without a request an event that schedules nothing changes nothing but
    the request slot. *)
Lemma schedulesNothing_idle (s : State) (e : Event) :
  pending s = None -> Framing.schedulesNothing e ->
  snd (step s e) = None /\
  hasFramed (fst (step s e)) = hasFramed s /\
  camera (fst (step s e)) = camera s /\
  pending (fst (step s e)) = None.
Proof.
  intros Hp He. split; [|split; [|split; [|now apply schedulesNothing_pending]]];
    destruct e as [[g|] width|g|]; cbn in *; rewrite ?He, ?Hp;
    cbn; rewrite ?orb_true_r; reflexivity.
Qed.

(** An event with nothing to measure never frames and keeps flag and
    camera. *)
Lemma nothingToMeasure_step (s : State) (e : Event) :
  Framing.nothingToMeasure e ->
  snd (step s e) = None /\
  hasFramed (fst (step s e)) = hasFramed s /\
  camera (fst (step s e)) = camera s.
Proof.
  intros He. destruct e as [[g|] width|[g|]|]; cbn in *.
  - destruct (hasFramed s || Nat.eqb (children g) 0); cbn; auto.
  - auto.
  - destruct (pending s); cbn; rewrite ?He; auto.
  - destruct (pending s); cbn; auto.
  - auto.
Qed.

Lemma run_schedulesNothing (es : list Event) (s : State) :
  pending s = None -> Forall Framing.schedulesNothing es ->
  snd (run s es) = [] /\
  hasFramed (fst (run s es)) = hasFramed s /\
  camera (fst (run s es)) = camera s.
Proof.
  revert s. induction es as [|e es IH]; intros s Hp Hes; [now repeat split|].
  inversion Hes as [|? ? He Hes']; subst.
  destruct (schedulesNothing_idle s e Hp He) as (Ho & Hf & Hc & Hp').
  destruct (IH _ Hp' Hes') as (Ho' & Hf' & Hc').
  rewrite run_cons. cbn [fst snd]. rewrite Ho, Ho', Hf', Hc'. auto.
Qed.

Lemma run_nothingToMeasure (es : list Event) (s : State) :
  Forall Framing.nothingToMeasure es ->
  snd (run s es) = [] /\
  hasFramed (fst (run s es)) = hasFramed s /\
  camera (fst (run s es)) = camera s.
Proof.
  revert s. induction es as [|e es IH]; intros s Hes; [now repeat split|].
  inversion Hes as [|? ? He Hes']; subst.
  destruct (nothingToMeasure_step s e He) as (Ho & Hf & Hc).
  destruct (IH (fst (step s e)) Hes') as (Ho' & Hf' & Hc').
  rewrite run_cons. cbn [fst snd]. rewrite Ho, Ho', Hf', Hc'. auto.
Qed.

End FramingRuns.

(** X13. From any state that is not framed yet, an effect run that sees a
    group with children followed by an animation frame that finds a non-empty
    bounding volume carries out the framing exactly once, with the distance
    computed from the viewport width of the effect run, and sets the flag. *)
Theorem populated_scene_is_framed
    (s : State) (g g' : Group) (sphere : Sphere) (width : R) :
  hasFramed s = false -> children g <> 0%nat ->
  boundingSphere g' = Some sphere ->
  snd (run s [EffectRun (Some g) width; AnimationFrame (Some g')])
  = [frameDistance (radius sphere) width] /\
  hasFramed (fst (run s [EffectRun (Some g) width; AnimationFrame (Some g')]))
  = true.
Proof.
  intros Hf Hc Hb.
  assert (Hp : pending (fst (step s (EffectRun (Some g) width))) = Some width).
  { cbn. rewrite Hf. apply Nat.eqb_neq in Hc. rewrite Hc. reflexivity. }
  destruct (step_frames _ g' sphere width Hp Hb) as [Hout Hflag].
  rewrite !run_cons. cbn [run fst snd]. cbn [step] in Hout, Hflag |- *.
  cbn [fst snd] in *. rewrite Hout. split; [reflexivity | exact Hflag].
Qed.

Lemma populated_scene_is_framed_example :
  snd (run (initial (mkCamera (mkVector3 0 8 14) None) None)
         [EffectRun (Some (mkGroup 0 12 None)) 800;
          AnimationFrame
            (Some (mkGroup 0 12 (Some (mkSphere (mkVector3 0 0 0) 10))))])
  = [frameDistance 10 800].
Proof.
  apply (populated_scene_is_framed
           (initial (mkCamera (mkVector3 0 8 14) None) None)
           (mkGroup 0 12 None)
           (mkGroup 0 12 (Some (mkSphere (mkVector3 0 0 0) 10)))
           (mkSphere (mkVector3 0 0 0) 10) 800);
    [reflexivity | cbn; lia | reflexivity].
Defined.

(** X14. As long as no effect run sees a group with children, or no animation
    frame finds a non-empty bounding volume, nothing is framed: the flag
    stays clear and the camera keeps its initial pose, however long the
    sequence of events. *)
Theorem unpopulated_scene_is_never_framed
    (cam : Camera) (ctl : option OrbitControls) (es : list Event) :
  Forall Framing.schedulesNothing es \/ Forall Framing.nothingToMeasure es ->
  snd (run (initial cam ctl) es) = [] /\
  hasFramed (fst (run (initial cam ctl) es)) = false /\
  camera (fst (run (initial cam ctl) es)) = cam.
Proof.
  intros [H|H].
  - exact (run_schedulesNothing es (initial cam ctl) eq_refl H).
  - exact (run_nothingToMeasure es (initial cam ctl) H).
Qed.

Lemma unpopulated_scene_is_never_framed_example :
  snd (run (initial (mkCamera (mkVector3 0 8 14) None) None)
         [EffectRun None 1200;
          EffectRun (Some (mkGroup 0 0 None)) 1200;
          AnimationFrame (Some (mkGroup 0 12 (Some (mkSphere (mkVector3 0 0 0) 10))));
          Cleanup])
  = [].
Proof.
  apply (unpopulated_scene_is_never_framed (mkCamera (mkVector3 0 8 14) None) None
           [EffectRun None 1200;
            EffectRun (Some (mkGroup 0 0 None)) 1200;
            AnimationFrame (Some (mkGroup 0 12 (Some (mkSphere (mkVector3 0 0 0) 10))));
            Cleanup]).
  left. repeat constructor.
Defined.

(** X15. A request is good for one animation frame only.  After an animation
    frame, whatever it found, after a cleanup, and after an effect run that
    saw no group or a group without children, the next animation frame does
    nothing: in particular an attempt that found an empty bounding volume is
    not repeated until the effect runs again. *)
Theorem request_fires_once (s : State) (e : Event) (g : option Group) :
  Framing.schedulesNothing e ->
  step (fst (step s e)) (AnimationFrame g) = (fst (step s e), None).
Proof.
  intros He. cbn [step]. now rewrite (schedulesNothing_pending s e He).
Qed.

Lemma request_fires_once_after_empty_volume :
  step
    (fst (step (mkState false (Some 800) (mkCamera (mkVector3 0 8 14) None) None)
               (AnimationFrame (Some (mkGroup 0 12 None)))))
    (AnimationFrame (Some (mkGroup 0 12 (Some (mkSphere (mkVector3 0 0 0) 10)))))
  = (fst (step (mkState false (Some 800) (mkCamera (mkVector3 0 8 14) None) None)
               (AnimationFrame (Some (mkGroup 0 12 None)))),
     None).
Proof.
  apply (request_fires_once
           (mkState false (Some 800) (mkCamera (mkVector3 0 8 14) None) None)
           (AnimationFrame (Some (mkGroup 0 12 None)))).
  exact I.
Defined.

(** X16. A larger bounding sphere never brings the camera closer: for a fixed
    viewport width the framing distance is monotone in the radius. *)
Theorem framing_distance_monotone (r1 r2 width : R) :
  r1 <= r2 -> frameDistance r1 width <= frameDistance r2 width.
Proof.
  intros Hr. destruct tan_half_fov_range as [Hlo _].
  assert (Hb : baseDistance r1 <= baseDistance r2).
  { unfold baseDistance, JS.max. apply Rle_max_compat_r.
    unfold Rdiv. apply Rmult_le_compat_r.
    - left. now apply Rinv_0_lt_compat.
    - unfold FRAMING_PADDING. lra. }
  unfold frameDistance.
  destruct (Rlt_dec width MOBILE_BREAKPOINT); [|exact Hb].
  unfold MOBILE_DISTANCE_FACTOR. lra.
Qed.

Lemma framing_distance_monotone_example :
  frameDistance 10 800 <= frameDistance 25 800.
Proof.
  apply (framing_distance_monotone 10 25 800). lra.
Defined.

(** ** Markers *)

Section MarkerFacts.

Lemma markers_unfold :
  Markers.MARKERS
  = map (fun p => Markers.makeMarker (fst p) (snd p))
        (combine Markers.SIDE_LABELS (seq 0 6)).
Proof. reflexivity. Qed.

(** Every marker is [makeMarker label i] for an index below six. *)
Lemma markers_inv (m : Markers.MarkerData) :
  In m Markers.MARKERS ->
  exists label i, (i < 6)%nat /\ m = Markers.makeMarker label i.
Proof.
  rewrite markers_unfold. intros H. apply in_map_iff in H.
  destruct H as ([label i] & <- & Hin). exists label, i. split; [|reflexivity].
  apply in_combine_r in Hin. apply in_seq in Hin. lia.
Qed.

Lemma marker_ids_NoDup : NoDup (map Markers.id Markers.MARKERS).
Proof.
  assert (D : forall a b : String.string, a <> b <-> String.eqb a b = false)
    by (intros a b; now rewrite String.eqb_neq).
  repeat constructor; cbn; intros H;
    repeat (destruct H as [H|H]; [apply D in H; [exact H|reflexivity]|]);
    exact H.
Qed.

(** With distinct keys at most one element of a list matches a given key. *)
Lemma at_most_one_match (l : list Markers.MarkerData) (i : String.string) :
  NoDup (map Markers.id l) ->
  (length (filter (fun m => String.eqb (Markers.id m) i) l) <= 1)%nat.
Proof.
  induction l as [|m l IH]; intros Hnd; cbn; [lia|].
  inversion Hnd as [|? ? Hnotin Hnd']; subst.
  destruct (String.eqb_spec (Markers.id m) i) as [E|_]; [|now apply IH].
  cbn. assert (Hnone : filter (fun m0 => String.eqb (Markers.id m0) i) l = []).
  { clear IH Hnd Hnd'. induction l as [|m' l IHl]; [reflexivity|]. cbn.
    destruct (String.eqb_spec (Markers.id m') i) as [E'|_].
    - exfalso. apply Hnotin. left. congruence.
    - apply IHl. intros Hin. apply Hnotin. now right. }
  rewrite Hnone. cbn. lia.
Qed.

End MarkerFacts.

(** X17. The six markers have pairwise distinct ids, so whatever the selected
    id is, at most one marker is drawn as selected. *)
Theorem at_most_one_marker_selected (selectedMarkerId : option String.string) :
  length Markers.MARKERS = 6%nat /\
  NoDup (map Markers.id Markers.MARKERS) /\
  (length (filter (fun m => Markers.isSelected m selectedMarkerId)
             Markers.MARKERS) <= 1)%nat.
Proof.
  split; [reflexivity|]. split; [apply marker_ids_NoDup|].
  destruct selectedMarkerId as [i|].
  - apply (at_most_one_match Markers.MARKERS i), marker_ids_NoDup.
  - cbn. lia.
Qed.

(** X18. Every marker has its element defined (the lookup by index never
    leaves the table), an attack two above its defense and a level from 1 to
    6, and sits at height 0.55 on the circle of radius 50 around the vertical
    axis. *)
Theorem markers_well_formed (m : Markers.MarkerData) :
  In m Markers.MARKERS ->
  Markers.element m <> None /\
  Markers.attack m = (Markers.defense m + 2)%Z /\
  (1 <= Markers.level m <= 6)%Z /\
  snd (fst (Markers.position m)) = 0.55 /\
  fst (fst (Markers.position m)) ^ 2 + snd (Markers.position m) ^ 2 = 50 ^ 2.
Proof.
  intros Hin. destruct (markers_inv m Hin) as (label & i & Hi & ->).
  cbn [Markers.makeMarker Markers.element Markers.attack Markers.defense
       Markers.level Markers.position fst snd].
  split; [|split; [lia|split; [lia|split; [reflexivity|]]]].
  - do 6 (destruct i as [|i]; [discriminate|]). lia.
  - set (a := PI / 2 - INR i * (2 * PI / 6)).
    pose proof (sin2_cos2 a) as H. unfold Rsqr in H.
    unfold Markers.MARKER_RING_RADIUS. nra.
Qed.

Lemma markers_well_formed_north :
  Markers.element (Markers.makeMarker (hd String.EmptyString Markers.SIDE_LABELS) 0)
  <> None.
Proof.
  apply (markers_well_formed
           (Markers.makeMarker (hd String.EmptyString Markers.SIDE_LABELS) 0)).
  left. reflexivity.
Defined.

(** X19. The marker of side [i] stands at [(50 sin (i π/3), 0.55, 50 cos (i π/3))]:
    side 0 at +Z and each further side a sixth of a turn on, so that the
    markers of opposite sides face each other across the axis. *)
Theorem marker_positions (i : nat) (m : Markers.MarkerData) :
  nth_error Markers.MARKERS i = Some m ->
  Markers.position m
  = (50 * sin (INR i * (PI / 3)), 0.55, 50 * cos (INR i * (PI / 3))).
Proof.
  intros H.
  assert (Hm : exists label, m = Markers.makeMarker label i).
  { do 6 (destruct i as [|i]; [inversion H; eexists; reflexivity|]).
    destruct i; discriminate. }
  destruct Hm as [label ->].
  cbn [Markers.makeMarker Markers.position].
  unfold Markers.MARKER_RING_RADIUS, Markers.MARKER_BASE_Y.
  replace (PI / 2 - INR i * (2 * PI / 6)) with (PI / 2 - INR i * (PI / 3))
    by lra.
  now rewrite cos_shift, sin_shift.
Qed.

Lemma marker_positions_north :
  Markers.position
    (Markers.makeMarker (hd String.EmptyString Markers.SIDE_LABELS) 0)
  = (50 * sin (INR 0 * (PI / 3)), 0.55, 50 * cos (INR 0 * (PI / 3))).
Proof.
  apply (marker_positions 0). reflexivity.
Defined.

(** ** Selection *)

Section SelectionFacts.

(** The scene's selected id is the id of the page's selected marker. *)
Lemma select_in_sync (s : Markers.Selection) (e : Markers.SelectEvent) :
  Markers.selectedMarkerId s = option_map Markers.id (Markers.selectedMarker s) ->
  Markers.selectedMarkerId (Markers.select s e)
  = option_map Markers.id (Markers.selectedMarker (Markers.select s e)).
Proof.
  intros Hs. destruct e as [marker|]; [|reflexivity].
  cbn [Markers.select Markers.selectedMarkerId Markers.selectedMarker].
  rewrite Hs. destruct (Markers.selectedMarker s) as [p|]; cbn; [|reflexivity].
  destruct (String.eqb (Markers.id p) (Markers.id marker)); reflexivity.
Qed.

Lemma fold_select_in_sync (es : list Markers.SelectEvent) (s : Markers.Selection) :
  Markers.selectedMarkerId s = option_map Markers.id (Markers.selectedMarker s) ->
  Markers.selectedMarkerId (fold_left Markers.select es s)
  = option_map Markers.id (Markers.selectedMarker (fold_left Markers.select es s)).
Proof.
  revert s. induction es as [|e es IH]; intros s Hs; [exact Hs|].
  cbn. apply IH. now apply select_in_sync.
Qed.

End SelectionFacts.

(** X20. The page and the scene keep their own copy of the selection and
    update it with different updaters; after any sequence of marker clicks
    and missed clicks the two agree: the id highlighted in the scene is the
    id of the marker whose card the page shows, and neither is set when the
    other is not. *)
Theorem selection_stays_in_sync (es : list Markers.SelectEvent) :
  Markers.selectedMarkerId (Markers.selections es)
  = option_map Markers.id (Markers.selectedMarker (Markers.selections es)).
Proof. apply fold_select_in_sync. reflexivity. Qed.

(** ** The compass hexagon *)

Section CompassFacts.

Lemma hexPoint_angle (index : Z) :
  PI / 180 * (60 * IZR index - 30) = IZR index * (PI / 3) - PI / 6.
Proof. lra. Qed.

Lemma cos_add_turn (a : R) : cos (a + 2 * PI) = cos a.
Proof. rewrite cos_plus, cos_2PI, sin_2PI. ring. Qed.

Lemma sin_add_turn (a : R) : sin (a + 2 * PI) = sin a.
Proof. rewrite sin_plus, cos_2PI, sin_2PI. ring. Qed.

(** Vertices six indices apart coincide. *)
Lemma hexPoint_period (index : Z) :
  Compass.hexPoint (index + 6) = Compass.hexPoint index.
Proof.
  unfold Compass.hexPoint. rewrite !hexPoint_angle, plus_IZR.
  replace ((IZR index + 6) * (PI / 3) - PI / 6)
    with (IZR index * (PI / 3) - PI / 6 + 2 * PI) by lra.
  now rewrite cos_add_turn, sin_add_turn.
Qed.

(** The second vertex of a segment is the vertex of the next index, also
    for the last segment, whose second vertex is vertex 0. *)
Lemma segment_second_vertex (index : Z) :
  (0 <= index < 6)%Z ->
  Compass.hexPoint (Z.rem (index + 1) Compass.SIDES)
  = Compass.hexPoint (index + 1).
Proof.
  intros H. unfold Compass.SIDES.
  destruct (Z.eq_dec index 5) as [->|Hne].
  - change (Z.rem (5 + 1) 6) with 0%Z. change (5 + 1)%Z with (0 + 6)%Z.
    symmetry. apply hexPoint_period.
  - rewrite Z.rem_small by lia. reflexivity.
Qed.

End CompassFacts.

(** X21. The compass vertices form a regular hexagon inside the 100 by 100
    view box: every vertex lies on the circle of radius 40 around (50, 50),
    hence has both coordinates between 10 and 90; consecutive vertices are
    exactly 40 apart; and vertices six indices apart coincide. *)
Theorem compass_hexagon_regular (index : Z) :
  let p := Compass.hexPoint index in
  let q := Compass.hexPoint (index + 1) in
  (Compass.px p - 50) ^ 2 + (Compass.py p - 50) ^ 2 = 40 ^ 2 /\
  10 <= Compass.px p <= 90 /\ 10 <= Compass.py p <= 90 /\
  (Compass.px q - Compass.px p) ^ 2 + (Compass.py q - Compass.py p) ^ 2 = 40 ^ 2 /\
  Compass.hexPoint (index + 6) = p.
Proof.
  intros p q.
  split; [|split; [|split; [|split; [|apply hexPoint_period]]]];
    unfold p, q, Compass.hexPoint; cbn [Compass.px Compass.py];
    rewrite !hexPoint_angle, ?plus_IZR;
    unfold Compass.CENTER, Compass.RADIUS;
    set (a := IZR index * (PI / 3) - PI / 6);
    pose proof (sin2_cos2 a) as Ha; unfold Rsqr in Ha;
    pose proof (COS_bound a) as Hc; pose proof (SIN_bound a) as Hs.
  - nra.
  - lra.
  - lra.
  - replace ((IZR index + 1) * (PI / 3) - PI / 6) with (a + PI / 3)
      by (unfold a; lra).
    rewrite cos_plus, sin_plus, cos_PI3.
    pose proof (sin2_cos2 (PI / 3)) as H3. unfold Rsqr in H3.
    rewrite cos_PI3 in H3. set (s3 := sin (PI / 3)) in *. nra.
Qed.

(** X22. For each of the six segments the label midpoint lies on the ray
    from the centre through the middle of the segment's outer edge, at
    distance [40 √3 / 3] from the centre: it is
    [(50 + 40 √3/3 cos (i π/3), 50 + 40 √3/3 sin (i π/3))], also for the last
    segment, which closes the hexagon through vertex 0. *)
Theorem segment_midpoint_on_bisector (index : Z) :
  (0 <= index < 6)%Z ->
  Compass.segmentMidpoint index
  = {| Compass.px := 50 + 40 * sqrt 3 / 3 * cos (IZR index * (PI / 3));
       Compass.py := 50 + 40 * sqrt 3 / 3 * sin (IZR index * (PI / 3)) |}.
Proof.
  intros H. unfold Compass.segmentMidpoint.
  rewrite (segment_second_vertex index H).
  unfold Compass.hexPoint. cbn [Compass.px Compass.py].
  rewrite !hexPoint_angle, plus_IZR.
  unfold Compass.CENTER, Compass.RADIUS.
  set (t := IZR index * (PI / 3)).
  replace ((IZR index + 1) * (PI / 3) - PI / 6) with (t + PI / 6)
    by (unfold t; lra).
  rewrite cos_minus, sin_minus, cos_plus, sin_plus, cos_PI6, sin_PI6.
  f_equal; field.
Qed.

Lemma segment_midpoint_on_bisector_last :
  Compass.segmentMidpoint 5
  = {| Compass.px := 50 + 40 * sqrt 3 / 3 * cos (IZR 5 * (PI / 3));
       Compass.py := 50 + 40 * sqrt 3 / 3 * sin (IZR 5 * (PI / 3)) |}.
Proof.
  apply (segment_midpoint_on_bisector 5). lia.
Defined.

(** ** Loading *)

Section LoadingFacts.

Lemma fold_onProgress (reports : list R) (loaded : bool) :
  fold_left Page.onProgress reports loaded = true
  <-> loaded = true \/ Exists (fun p => 100 <= p) reports.
Proof.
  revert loaded. induction reports as [|p reports IH]; intros loaded; cbn.
  - split; [now left|]. intros [H|H]; [exact H|inversion H].
  - rewrite IH. unfold Page.onProgress.
    destruct (Rle_dec 100 p) as [Hp|Hp].
    + split; intros _; [right; now constructor | now left].
    + split; intros [H|H]; auto.
      inversion H; subst; [contradiction | now right].
Qed.

End LoadingFacts.

(** X23. The page's [loaded] flag is a latch: after a sequence of progress
    reports it is set exactly when some report reached 100, and reports
    below 100 that come later do not clear it. *)
Theorem loaded_is_a_latch (reports later : list R) :
  (Page.loadedAfter reports = true <-> Exists (fun p => 100 <= p) reports) /\
  (Page.loadedAfter reports = true ->
     Page.loadedAfter (reports ++ later) = true).
Proof.
  unfold Page.loadedAfter. split.
  - rewrite fold_onProgress. split; [intros [H|H]; [discriminate|exact H] | now right].
  - intros H. rewrite fold_left_app, H. apply fold_onProgress. now left.
Qed.

Lemma loaded_is_a_latch_example :
  Page.loadedAfter ([12; 100] ++ [40; 0]) = true.
Proof.
  apply (loaded_is_a_latch [12; 100] [40; 0]).
  apply (loaded_is_a_latch [12; 100] [40; 0]).
  right. left. lra.
Defined.

(** ** From a click to the orientation on screen *)

Section EndToEnd.

Lemma congruent_run (es : list Page.UiEvent) (s : Page.State) :
  congruent (Page.refs s) -> congruent (Page.refs (Page.run s es)).
Proof.
  revert s. induction es as [|e es IH]; intros s Hs; [exact Hs|].
  cbn. apply IH. cbn. now apply congruent_onSideChanged.
Qed.

End EndToEnd.

(** X24. After any sequence of clicks and compass selections on a scene
    mounted on a valid side, frames of any fixed length [dt > 0] bring the
    group, from whatever orientation it has, to an orientation that equals
    the canonical angle of the current side up to whole turns, and keep it
    there. *)
Theorem city_turns_to_current_side
    (side : Z) (es : list Page.UiEvent) (current dt : R) :
  validSide side -> Forall Page.rendered es -> 0 < dt ->
  exists (N : nat) (k : Z),
    forall n : nat, (N <= n)%nat ->
      frames n (accumulatedRef (Page.refs (Page.run (Page.mounted side) es)))
        current dt
      = getRotationAngle (Page.currentSide (Page.run (Page.mounted side) es))
        + 2 * PI * IZR k.
Proof.
  intros Hs Hes Hdt.
  destruct (inStep_run es (Page.mounted side) (inStep_mounted side Hs) Hes)
    as [_ Href].
  destruct (congruent_run es (Page.mounted side) (congruent_mount side))
    as [k Hk].
  destruct (damping_reaches_target
              (accumulatedRef (Page.refs (Page.run (Page.mounted side) es)))
              current dt Hdt) as [N HN].
  exists (S N), k. intros n Hn.
  replace n with ((n - S N) + S N)%nat by lia.
  rewrite frames_add, HN, frames_at_target, Hk, Href. reflexivity.
Qed.

Lemma city_turns_to_current_side_example :
  exists (N : nat) (k : Z),
    forall n : nat, (N <= n)%nat ->
      frames n
        (accumulatedRef
           (Page.refs
              (Page.run (Page.mounted 0) [Page.ClickNext; Page.SelectSegment 4])))
        0 0.016
      = getRotationAngle
          (Page.currentSide
             (Page.run (Page.mounted 0) [Page.ClickNext; Page.SelectSegment 4]))
        + 2 * PI * IZR k.
Proof.
  apply (city_turns_to_current_side 0 [Page.ClickNext; Page.SelectSegment 4]
           0 0.016).
  - unfold validSide, SIDES. lia.
  - repeat constructor; cbn; tauto.
  - lra.
Defined.
